(** * foonathan::memory -- [stack_allocator.hpp]

    A shallow embedding of [memory_stack] and [stack_allocator] and the
    properties of the bump allocation, the block switch and the
    marker / unwind protocol.

    Platform model (LP64): [std::size_t] and [std::uintptr_t] are 64-bit
    unsigned integers, [unsigned] (the type of the literal [0u]) is 32 bits.
    Values are carried as [Z], every arithmetic operation of the source is
    followed by the reduction of its type.  A [char*] is its address; pointer
    arithmetic is address arithmetic modulo 2^64.  The [assert] of [allocate]
    is checked: a failing assertion ends the call with [assertion_failed]. *)

From Stdlib Require Import ZArith Zdivisibility Lia List Bool Sorted.
Import ListNotations.
Local Open Scope Z_scope.

(** ** Machine integers *)

Definition size_t_bits : Z := 64.
Definition unsigned_bits : Z := 32.

(** Reduction to [std::size_t] / [std::uintptr_t]. *)
Definition wrap (x : Z) : Z := x mod 2 ^ size_t_bits.

(** Reduction to [unsigned]. *)
Definition wrap_unsigned (x : Z) : Z := x mod 2 ^ unsigned_bits.

(** A power of two that a [std::size_t] can hold. *)
Definition is_pow2 (alignment : Z) : Prop :=
  exists k, 0 <= k < size_t_bits /\ alignment = 2 ^ k.

(** ** Results of fallible calls *)

Inductive failure : Type :=
| bad_alloc          (* the raw memory source could not supply a block *)
| assertion_failed.  (* assert(... && "block size too small") *)

Inductive outcome (A : Type) : Type :=
| Ok (a : A)
| Fail (e : failure).
Arguments Ok {A} a.
Arguments Fail {A} e.

Definition bind {A B : Type} (m : outcome A) (k : A -> outcome B) : outcome B :=
  match m with
  | Ok a => k a
  | Fail e => Fail e
  end.

Notation "'do' x <- m ; k" := (bind m (fun x => k))
  (at level 10, x pattern, m at level 100, k at level 200).

(** ** Blocks and the block list *)

Module block_info.

(** What [list_.allocate()] returns: [block.memory], [block.size]. *)
Record t : Type := { memory : Z; size : Z }.

(** A block is a region of the address space. *)
Definition ok (b : t) : Prop :=
  0 <= memory b /\ 0 <= size b /\ memory b + size b < 2 ^ size_t_bits.

End block_info.

Module block_list.

(** Modelled from the spec: [detail/block_list.hpp] is not part of the
    sources.  The interface is the BlockChain capability: [allocate]
    acquires and appends a block (or the raw memory source fails),
    [deallocate] releases the most recently acquired block, [size] is the
    block count and [next_block_size] a pure query.  [blocks] is the chain
    the list owns, most recent block first; it exists only to state the
    contract. *)
Class chain (L : Type) : Type := {
  create : Z -> L;
  allocate : L -> option (block_info.t * L);
  deallocate : L -> L;
  size : L -> Z;
  next_block_size : L -> Z;
  blocks : L -> list block_info.t;
  create_blocks : forall n, blocks (create n) = [];
  allocate_blocks : forall l b l',
    allocate l = Some (b, l') -> blocks l' = b :: blocks l;
  allocate_block_ok : forall l b l',
    allocate l = Some (b, l') -> block_info.ok b;
  deallocate_blocks : forall l, blocks (deallocate l) = tl (blocks l);
  size_blocks : forall l, size l = wrap (Z.of_nat (length (blocks l)))
}.

End block_list.

(** ** memory_stack *)

Module memory_stack.

Section with_chain.
Context {L : Type} `{CH : !block_list.chain L}.

(** The data members [list_], [cur_], [cur_end_]. *)
Record t : Type := { list_ : L; cur_ : Z; cur_end_ : Z }.

(** [class marker]: [index], [cur], [cur_end]. *)
Record marker : Type := { index : Z; cur : Z; cur_end : Z }.

(** [capacity()]: [cur_end_ - cur_], converted to [std::size_t]. *)
Definition capacity (s : t) : Z := wrap (cur_end_ s - cur_ s).

(** [next_capacity()]. *)
Definition next_capacity (s : t) : Z := block_list.next_block_size (list_ s).

(** [align_offset(alignment)]. *)
Definition align_offset (s : t) (alignment : Z) : Z :=
  let address := cur_ s in
  let misaligned := Z.land address (wrap (alignment - 1)) in
  wrap (misaligned * wrap (alignment - misaligned)).

(** The two assignments of [allocate_block()]:
    [cur_ = block.memory; cur_end_ = cur_ + block.size]. *)
Definition on_block (l : L) (block : block_info.t) : t :=
  let c := block_info.memory block in
  {| list_ := l; cur_ := c; cur_end_ := wrap (c + block_info.size block) |}.

(** [allocate_block()]. *)
Definition allocate_block (s : t) : outcome t :=
  match block_list.allocate (list_ s) with
  | Some (block, l') =>
      Ok (on_block l' block)
  | None => Fail bad_alloc
  end.

(** The constructor: [list_(block_size, allocator)], then
    [allocate_block()]; [cur_] and [cur_end_] hold no value before. *)
Definition make_on (l : L) : outcome t :=
  allocate_block {| list_ := l; cur_ := 0; cur_end_ := 0 |}.

Definition make (block_size : Z) : outcome t :=
  make_on (block_list.create block_size).

(** The bump at the end of [allocate]. *)
Definition bump (s : t) (offset size : Z) : Z * t :=
  let c := wrap (cur_ s + offset) in
  let memory := c in
  (memory, {| list_ := list_ s; cur_ := wrap (c + size);
              cur_end_ := cur_end_ s |}).

(** [allocate(size, alignment)]. *)
Definition allocate (size alignment : Z) (s : t) : outcome (Z * t) :=
  let offset := align_offset s alignment in
  if capacity s <? wrap (offset + size) then
    do s1 <- allocate_block s;
    let offset := align_offset s1 alignment in
    if wrap (offset + size) <=? capacity s1
    then Ok (bump s1 offset size)
    else Fail assertion_failed
  else Ok (bump s offset size).

(** [top()]. *)
Definition top (s : t) : marker :=
  {| index := wrap (block_list.size (list_ s) - 1);
     cur := cur_ s; cur_end := cur_end_ s |}.

(** The loop of [unwind]:
    [for (auto i = 0u; i != diff; ++i) list_.deallocate();]
    The counter [i] is an [unsigned], [diff] a [std::size_t].  [None]
    when the fuel is used up before the loop ends. *)
Fixpoint unwind_loop (fuel : nat) (i diff : Z) (l : L) : option L :=
  match fuel with
  | O => None
  | S fuel' =>
      if i =? diff then Some l
      else unwind_loop fuel' (wrap_unsigned (i + 1)) diff
                       (block_list.deallocate l)
  end.

(** [unwind(m)].  The source names the marker's members [m.cur_] and
    [m.cur_end_]; the members declared in [marker] are [cur] and
    [cur_end]. *)
Definition unwind (fuel : nat) (m : marker) (s : t) : option t :=
  let diff := wrap (wrap (block_list.size (list_ s) - index m) - 1) in
  match unwind_loop fuel 0 diff (list_ s) with
  | Some l' => Some {| list_ := l'; cur_ := cur m; cur_end_ := cur_end m |}
  | None => None
  end.

(** A run of [allocate] calls, each a pair (size, alignment); the
    returned pointers in call order. *)
Fixpoint allocate_all (reqs : list (Z * Z)) (s : t)
  : outcome (list Z * t) :=
  match reqs with
  | [] => Ok ([], s)
  | (size, alignment) :: rest =>
      do (p, s1) <- allocate size alignment s;
      do (ps, s2) <- allocate_all rest s1;
      Ok (p :: ps, s2)
  end.

(** *** Notions used to state the properties *)

(** [n] calls of [list_.deallocate()]. *)
Definition release (n : nat) (l : L) : L :=
  Nat.iter n block_list.deallocate l.

(** The invariant of the data model: the list holds an active (most
    recent) block, and [cur_ <= cur_end_] both lie in it or one past
    its end. *)
Definition stack_inv (s : t) : Prop :=
  exists b rest,
    block_list.blocks (list_ s) = b :: rest /\
    block_info.ok b /\
    block_info.memory b <= cur_ s /\
    cur_ s <= cur_end_ s /\
    cur_end_ s <= block_info.memory b + block_info.size b.

(** A marker is valid for [s] when its index names a block [b] that is
    still in the list ([newer] are the blocks acquired after it), its
    pointers were saved inside [b], and the block count is one a
    [std::size_t] holds. *)
Definition marker_valid (m : marker) (s : t) : Prop :=
  exists newer b rest,
    block_list.blocks (list_ s) = newer ++ b :: rest /\
    Z.of_nat (length (block_list.blocks (list_ s))) < 2 ^ size_t_bits /\
    index m = Z.of_nat (length rest) /\
    block_info.ok b /\
    block_info.memory b <= cur m /\
    cur m <= cur_end m /\
    cur_end m <= block_info.memory b + block_info.size b.

(** The bytes the code consumes for a run of requests when none of them
    switches the block: each request's size plus the padding the source's
    [align_offset] computes (the product, not the conditional padding of
    the specification) at the cursor the request finds. *)
Fixpoint padded_total (reqs : list (Z * Z)) (s : t) : Z :=
  match reqs with
  | [] => 0
  | (size, alignment) :: rest =>
      let offset := align_offset s alignment in
      offset + size + padded_total rest (snd (bump s offset size))
  end.

(** Every range [[p, p + size)] ends at or before the start of each
    later one. *)
Definition ranges_ascending (ranges : list (Z * Z)) : Prop :=
  StronglySorted (fun r1 r2 => fst r1 + snd r1 <= fst r2) ranges.

End with_chain.

Arguments t L : clear implicits.

End memory_stack.

(** ** stack_allocator *)

Module stack_allocator.

Section with_chain.
Context {L : Type} `{CH : !block_list.chain L}.

(** The stacks that exist, by address. *)
Definition store : Type := nat -> memory_stack.t L.

Definition update (st : store) (a : nat) (s : memory_stack.t L) : store :=
  fun a' => if Nat.eqb a' a then s else st a'.

(** The data member [stack_]: the address of the stack it refers to. *)
Record t : Type := { stack_ : nat }.

(** [get_memory()]. *)
Definition get_memory (a : t) (st : store) : memory_stack.t L :=
  st (stack_ a).

(** [allocate_node(size, alignment)]. *)
Definition allocate_node (a : t) (size alignment : Z) (st : store)
  : outcome (Z * store) :=
  do (p, s') <- memory_stack.allocate size alignment (st (stack_ a));
  Ok (p, update st (stack_ a) s').

(** [deallocate_node(void*, std::size_t, std::size_t)]: empty body. *)
Definition deallocate_node (a : t) (p size alignment : Z) (st : store)
  : store := st.

(** [max_node_size()], [max_array_size()]. *)
Definition max_node_size (a : t) (st : store) : Z :=
  memory_stack.next_capacity (st (stack_ a)).

Definition max_array_size (a : t) (st : store) : Z :=
  memory_stack.next_capacity (st (stack_ a)).

End with_chain.

End stack_allocator.

(** ** A block list to run the code on

    Blocks are carved from a raw memory source that hands out consecutive
    addresses from [brk] on; the next block size is multiplied by [growth]
    after every acquisition. *)

Module bump_chain.

Record state : Type :=
  { held : list block_info.t; brk : Z; next_size : Z; growth : Z }.

Definition allocate (l : state) : option (block_info.t * state) :=
  if (0 <=? brk l) && (0 <=? next_size l)
     && (brk l + next_size l <? 2 ^ size_t_bits)
  then
    let b := {| block_info.memory := brk l;
                block_info.size := next_size l |} in
    Some (b, {| held := b :: held l;
                brk := brk l + next_size l;
                next_size := wrap (next_size l * growth l);
                growth := growth l |})
  else None.

Definition deallocate (l : state) : state :=
  {| held := tl (held l); brk := brk l;
     next_size := next_size l; growth := growth l |}.

Definition create (block_size : Z) : state :=
  {| held := []; brk := 4096; next_size := wrap block_size; growth := 2 |}.

#[global, refine] Instance bump_chain_is_chain : block_list.chain state :=
  {| block_list.create := create;
     block_list.allocate := allocate;
     block_list.deallocate := deallocate;
     block_list.size := fun l => wrap (Z.of_nat (length (held l)));
     block_list.next_block_size := next_size;
     block_list.blocks := held |}.
Proof.
  - reflexivity.
  - intros l b l'. unfold allocate.
    destruct (_ && _); [|discriminate]. now intros [= <- <-].
  - intros l b l'. unfold allocate, block_info.ok, size_t_bits.
    destruct (_ && _) eqn:E; [|discriminate].
    intros [= <- _]; cbn.
    apply andb_true_iff in E as [E E3]. apply andb_true_iff in E as [E1 E2].
    apply Z.leb_le in E1, E2. apply Z.ltb_lt in E3. auto.
  - reflexivity.
  - reflexivity.
Defined.

End bump_chain.

(** ** States to run the code on *)

Module examples.
Import memory_stack.

Definition block (memory size : Z) : block_info.t :=
  {| block_info.memory := memory; block_info.size := size |}.

(** [memory_stack stack(1024)]. *)
Definition stack_1024 : t bump_chain.state :=
  {| list_ := {| bump_chain.held := [block 4096 1024];
                 bump_chain.brk := 5120;
                 bump_chain.next_size := 2048;
                 bump_chain.growth := 2 |};
     cur_ := 4096; cur_end_ := 5120 |}.

(** [memory_stack stack(16)]. *)
Definition stack_16 : t bump_chain.state :=
  {| list_ := {| bump_chain.held := [block 4096 16];
                 bump_chain.brk := 4112;
                 bump_chain.next_size := 32;
                 bump_chain.growth := 2 |};
     cur_ := 4096; cur_end_ := 4112 |}.

(** [stack_1024] after [allocate(100, 16)], [allocate(50, 16)] and
    [allocate(900, 16)]; the third call switched to a block of 2048. *)
Definition stack_1024_after : t bump_chain.state :=
  {| list_ := {| bump_chain.held := [block 5120 2048; block 4096 1024];
                 bump_chain.brk := 7168;
                 bump_chain.next_size := 4096;
                 bump_chain.growth := 2 |};
     cur_ := 6020; cur_end_ := 7168 |}.

(** [stack_16] after [allocate(16, 1)]: its block is full. *)
Definition stack_16_full : t bump_chain.state :=
  {| list_ := list_ stack_16; cur_ := 4112; cur_end_ := 4112 |}.

(** [stack_16] after [allocate(2, 1)]. *)
Definition stack_16_plus2 : t bump_chain.state :=
  {| list_ := list_ stack_16; cur_ := 4098; cur_end_ := 4112 |}.

(** The block list of [stack_16] after one more acquisition. *)
Definition chain_16_next : bump_chain.state :=
  {| bump_chain.held := [block 4112 32; block 4096 16];
     bump_chain.brk := 4144;
     bump_chain.next_size := 64;
     bump_chain.growth := 2 |}.

(** [stack_1024] after [allocate(1, 1)]: the cursor is odd. *)
Definition stack_1024_odd : t bump_chain.state :=
  {| list_ := list_ stack_1024; cur_ := 4097; cur_end_ := 5120 |}.

(** A block list whose blocks all have 16 bytes. *)
Definition fixed16 : bump_chain.state :=
  {| bump_chain.held := []; bump_chain.brk := 4096;
     bump_chain.next_size := 16; bump_chain.growth := 1 |}.

(** The stack on [fixed16] after [allocate(16, 1)]: its one block is
    full. *)
Definition full16 : t bump_chain.state :=
  {| list_ := {| bump_chain.held := [block 4096 16];
                 bump_chain.brk := 4112;
                 bump_chain.next_size := 16;
                 bump_chain.growth := 1 |};
     cur_ := 4112; cur_end_ := 4112 |}.

(** The states that run of 16-byte requests on [fixed16] passes through:
    the active block is full and the raw source continues right after
    it. *)
Definition full_fixed16 (s : t bump_chain.state) : Prop :=
  bump_chain.growth (list_ s) = 1 /\
  bump_chain.next_size (list_ s) = 16 /\
  bump_chain.brk (list_ s) = cur_ s /\
  cur_end_ s = cur_ s /\
  0 <= cur_ s.

(** 2^32 requests of 16 bytes. *)
Definition requests_2p32 : list (Z * Z) :=
  repeat (16, 1) (Z.to_nat (2 ^ 32)).

End examples.

(** ** The padding of the specification

    Follows the words of the specification, section 4.1 step 1: if
    [cursor mod alignment == 0] the padding is [0], otherwise it is
    [alignment - (cursor mod alignment)]. *)
Definition padding_spec (cursor alignment : Z) : Z :=
  if cursor mod alignment =? 0 then 0 else alignment - cursor mod alignment.

(** The bytes a run of requests needs with that padding: the padded
    requests of the specification, from the cursor the first one finds. *)
Fixpoint spec_padded_total (reqs : list (Z * Z)) (cursor : Z) : Z :=
  match reqs with
  | [] => 0
  | (size, alignment) :: rest =>
      let p := padding_spec cursor alignment in
      p + size + spec_padded_total rest (cursor + p + size)
  end.

(** * Facts about the machine integers *)

Section machine_facts.

Lemma wrap_range x : 0 <= wrap x < 2 ^ size_t_bits.
Proof. unfold wrap, size_t_bits. apply Z.mod_pos_bound. lia. Qed.

Lemma wrap_small x : 0 <= x < 2 ^ size_t_bits -> wrap x = x.
Proof. unfold wrap. apply Z.mod_small. Qed.

Lemma wrap_wrap x : wrap (wrap x) = wrap x.
Proof. apply wrap_small, wrap_range. Qed.

Lemma wrap_add_l x y : wrap (wrap x + y) = wrap (x + y).
Proof. unfold wrap. apply Zplus_mod_idemp_l. Qed.

Lemma wrap_add_r x y : wrap (x + wrap y) = wrap (x + y).
Proof. unfold wrap. apply Zplus_mod_idemp_r. Qed.

Lemma wrap_sub_l x y : wrap (wrap x - y) = wrap (x - y).
Proof. unfold wrap. apply Zminus_mod_idemp_l. Qed.

Lemma wrap_sub_r x y : wrap (x - wrap y) = wrap (x - y).
Proof. unfold wrap. apply Zminus_mod_idemp_r. Qed.

Lemma wrap_unsigned_small x :
  0 <= x < 2 ^ unsigned_bits -> wrap_unsigned x = x.
Proof. unfold wrap_unsigned. apply Z.mod_small. Qed.

Lemma wrap_unsigned_range x : 0 <= wrap_unsigned x < 2 ^ unsigned_bits.
Proof. unfold wrap_unsigned, unsigned_bits. apply Z.mod_pos_bound. lia. Qed.

Lemma is_pow2_bounds alignment :
  is_pow2 alignment -> 1 <= alignment <= 2 ^ (size_t_bits - 1).
Proof.
  intros (k & Hk & ->). unfold size_t_bits in *. split.
  - assert (0 < 2 ^ k) by (apply Z.pow_pos_nonneg; lia). lia.
  - apply Z.pow_le_mono_r; lia.
Qed.

(** [address & (alignment - 1)] is [address mod alignment]. *)
Lemma land_pow2_mask address alignment :
  is_pow2 alignment ->
  Z.land address (wrap (alignment - 1)) = address mod alignment.
Proof.
  intros Hp. pose proof (is_pow2_bounds _ Hp) as Hb.
  destruct Hp as (k & Hk & ->). unfold size_t_bits in *.
  rewrite wrap_small.
  - replace (2 ^ k - 1) with (Z.ones k).
    + apply Z.land_ones. lia.
    + rewrite Z.ones_equiv. lia.
  - unfold size_t_bits. change (2 ^ (64 - 1)) with (2 ^ 63) in Hb. lia.
Qed.

Lemma odd_coprime_pow2 x n :
  0 <= n -> Z.odd x = true -> Z.gcd (2 ^ n) x = 1.
Proof.
  intros Hn Hx. apply Z.coprime_pow_l; [exact Hn|].
  apply Z.coprime_prime_l; [exact Z.prime_2|].
  intros [q Hq]. subst x.
  rewrite Z.mul_comm, Z.odd_mul in Hx. discriminate.
Qed.

(** No product of an odd number and a non-zero number below 2^64 is a
    multiple of 2^64. *)
Lemma odd_mul_not_wrapped x y :
  Z.odd x = true -> 0 < y < 2 ^ size_t_bits ->
  ~ (2 ^ size_t_bits | x * y).
Proof.
  intros Hx Hy Hd. unfold size_t_bits in *.
  apply Z.gauss in Hd; [|apply odd_coprime_pow2; [lia|exact Hx]].
  apply Z.divide_pos_le in Hd; lia.
Qed.

End machine_facts.

(** * The alignment offset *)

Section align_offset_facts.
Context {L : Type} `{CH : !block_list.chain L}.
Import memory_stack.

(** For a power of two, the source computes [m * (alignment - m)] reduced
    to [std::size_t], with [m] the cursor modulo the alignment. *)
Lemma align_offset_pow2 (s : t L) alignment :
  is_pow2 alignment ->
  align_offset s alignment
  = wrap (cur_ s mod alignment * (alignment - cur_ s mod alignment)).
Proof.
  intros Hp. unfold align_offset.
  rewrite land_pow2_mask by exact Hp.
  pose proof (is_pow2_bounds _ Hp) as Hb.
  change (2 ^ (size_t_bits - 1)) with (2 ^ 63) in Hb.
  pose proof (Z.mod_pos_bound (cur_ s) alignment ltac:(lia)) as Hm.
  rewrite (wrap_small (alignment - _)); [reflexivity|].
  unfold size_t_bits. lia.
Qed.

(** X16: up to 2^32 the product cannot overflow, and it vanishes exactly
    on an aligned cursor. *)
Lemma align_offset_zero_iff_small (s : t L) alignment :
  is_pow2 alignment -> alignment <= 2 ^ 32 ->
  (align_offset s alignment = 0 <-> cur_ s mod alignment = 0).
Proof.
  intros Hp Hle. rewrite align_offset_pow2 by exact Hp.
  pose proof (is_pow2_bounds _ Hp) as Hb.
  pose proof (Z.mod_pos_bound (cur_ s) alignment ltac:(lia)) as Hm.
  set (m := cur_ s mod alignment) in *.
  rewrite wrap_small; [nia|]. unfold size_t_bits. nia.
Qed.

End align_offset_facts.

Section align_offset_vs_spec.
Context {L : Type} `{CH : !block_list.chain L}.
Import memory_stack.

Lemma pow2_even alignment :
  is_pow2 alignment -> 2 <= alignment -> Z.odd alignment = false.
Proof.
  intros (k & Hk & ->) H2.
  assert (k <> 0) by (intros ->; cbn in H2; lia).
  replace k with (Z.succ (k - 1)) by lia.
  rewrite Z.pow_succ_r by lia. now rewrite Z.odd_mul.
Qed.

(** C2 (as amended): the source's padding [m * (alignment - m)] equals the
    conditional padding of the specification exactly when the misalignment
    [m = cursor mod alignment] is 0 or 1, and differs from it for every
    misalignment of 2 or more. *)
Theorem align_offset_agrees_iff (s : t L) alignment :
  is_pow2 alignment ->
  (align_offset s alignment = padding_spec (cur_ s) alignment
   <-> cur_ s mod alignment = 0 \/ cur_ s mod alignment = 1).
Proof.
  intros Hp. rewrite align_offset_pow2 by exact Hp. unfold padding_spec.
  pose proof (is_pow2_bounds _ Hp) as Hb.
  change (2 ^ (size_t_bits - 1)) with (2 ^ 63) in Hb.
  pose proof (Z.mod_pos_bound (cur_ s) alignment ltac:(lia)) as Hm.
  set (m := cur_ s mod alignment) in *.
  split.
  - intros Heq.
    destruct (Z.eqb_spec m 0) as [|Hm0]; [now left|].
    destruct (Z.eq_dec m 1) as [|Hm1]; [now right|]. exfalso.
    assert (Hdiv : (2 ^ size_t_bits | (m - 1) * (alignment - m))).
    { exists (m * (alignment - m) / 2 ^ size_t_bits).
      pose proof (Z.div_mod (m * (alignment - m)) (2 ^ size_t_bits)
                    ltac:(unfold size_t_bits; lia)) as Hdm.
      unfold wrap in Heq. rewrite Heq in Hdm. lia. }
    pose proof (pow2_even _ Hp ltac:(lia)) as Hev.
    destruct (Z.odd m) eqn:Hodd.
    + rewrite Z.mul_comm in Hdiv. revert Hdiv.
      apply odd_mul_not_wrapped; [|unfold size_t_bits; lia].
      now rewrite Z.odd_sub, Hev, Hodd.
    + revert Hdiv.
      apply odd_mul_not_wrapped; [|unfold size_t_bits; lia].
      now rewrite Z.odd_sub, Hodd.
  - intros [H0|H1].
    + rewrite H0. reflexivity.
    + rewrite H1. cbn [Z.eqb]. rewrite Z.mul_1_l.
      apply wrap_small. unfold size_t_bits. lia.
Qed.

End align_offset_vs_spec.

(** * The release loop of [unwind] *)

Section unwind_loop_facts.
Context {L : Type} `{CH : !block_list.chain L}.
Import memory_stack.

Lemma release_succ n l :
  release (S n) l = release n (block_list.deallocate l).
Proof. unfold release. apply Nat.iter_succ_r. Qed.

(** Each call pops the most recent block: [n] calls drop the [n] newest. *)
Lemma release_blocks n l :
  block_list.blocks (release n l) = skipn n (block_list.blocks l).
Proof.
  revert l. induction n as [|n IH]; intros l; [reflexivity|].
  rewrite release_succ, IH, block_list.deallocate_blocks.
  now destruct (block_list.blocks l); [destruct n|].
Qed.

(** A count below 2^32 is reached by the [unsigned] counter: the loop
    ends after exactly [diff - i] calls of [deallocate]. *)
Lemma unwind_loop_runs n : forall fuel i diff l,
  0 <= i -> i + Z.of_nat n = diff -> diff < 2 ^ unsigned_bits ->
  (n < fuel)%nat ->
  unwind_loop fuel i diff l = Some (release n l).
Proof.
  induction n as [|n IH]; intros fuel i diff l Hi Hd Hlt Hf;
    (destruct fuel as [|fuel]; [lia|]); cbn [unwind_loop].
  - replace (i =? diff) with true by (symmetry; apply Z.eqb_eq; lia).
    reflexivity.
  - replace (i =? diff) with false by (symmetry; apply Z.eqb_neq; lia).
    rewrite release_succ. rewrite wrap_unsigned_small by lia.
    apply IH; lia.
Qed.

(** A count of 2^32 or more is never reached: the counter wraps to 0
    first, whatever the number of iterations. *)
Lemma unwind_loop_diverges fuel : forall i diff l,
  0 <= i < 2 ^ unsigned_bits -> 2 ^ unsigned_bits <= diff ->
  unwind_loop fuel i diff l = None.
Proof.
  induction fuel as [|fuel IH]; intros i diff l Hi Hd; [reflexivity|].
  cbn [unwind_loop].
  replace (i =? diff) with false by (symmetry; apply Z.eqb_neq; lia).
  apply IH; [apply wrap_unsigned_range|exact Hd].
Qed.


End unwind_loop_facts.

(** * Running the alignment on concrete stacks *)

Section align_offset_runs.
Import memory_stack examples.

Lemma is_pow2_exp (k : Z) : 0 <= k < size_t_bits -> is_pow2 (2 ^ k).
Proof. intros Hk. now exists k. Qed.

Lemma make_1024 : make 1024 = Ok stack_1024.
Proof. reflexivity. Qed.

(** C1: on the scenario of the specification -- a stack of block size
    1024, then [allocate(100, 16)] and [allocate(50, 16)] -- the second
    call finds the cursor 4 past a multiple of 16, adds the padding
    [4 * (16 - 4) = 48] and returns 4244, which is 4 modulo 16: the
    returned address is not a multiple of the alignment. *)
Theorem allocate_returns_misaligned :
  is_pow2 16 /\
  (do s <- make 1024;
   do (p0, s1) <- allocate 100 16 s;
   do (p1, s2) <- allocate 50 16 s1;
   Ok (p0, cur_ s1 mod 16, align_offset s1 16, p1, p1 mod 16))
  = Ok (4096, 4, 48, 4244, 4).
Proof. split; [apply (is_pow2_exp 4); unfold size_t_bits; lia|reflexivity]. Qed.

(** C2, refuted as stated: at the aligned cursor 4096 the misalignment is
    0, not 1, and yet the source's padding equals the conditional one. *)
Lemma align_offset_agrees_when_aligned :
  is_pow2 16 /\
  cur_ stack_1024 mod 16 = 0 /\
  align_offset stack_1024 16 = padding_spec (cur_ stack_1024) 16.
Proof.
  split; [apply (is_pow2_exp 4); unfold size_t_bits; lia|].
  split; reflexivity.
Qed.

(** C9: with the cursor at address 2^32 and the alignment 2^33 the
    product [2^32 * (2^33 - 2^32)] is 2^64, which a [std::size_t] reduces
    to 0: [align_offset] returns 0 although the cursor is not a multiple
    of the alignment, and [allocate] returns the misaligned cursor. *)
Theorem align_offset_zero_on_misaligned_cursor :
  is_pow2 (2 ^ 33) /\
  (do s <- make (2 ^ 34);
   do (_, s1) <- allocate (2 ^ 32 - 4096) 1 s;
   do (p, _) <- allocate 8 (2 ^ 33) s1;
   Ok (cur_ s1, cur_ s1 mod 2 ^ 33, align_offset s1 (2 ^ 33), p))
  = Ok (2 ^ 32, 2 ^ 32, 0, 2 ^ 32).
Proof.
  split; [apply is_pow2_exp; unfold size_t_bits; lia|].
  vm_compute. reflexivity.
Qed.

End align_offset_runs.

(** * [allocate] *)

Section allocate_facts.
Context {L : Type} `{CH : !block_list.chain L}.
Import memory_stack.

(** In a state whose pointers are ordered, [capacity()] is the plain
    difference. *)
Lemma capacity_plain (s : t L) :
  0 <= cur_ s -> cur_ s <= cur_end_ s -> cur_end_ s < 2 ^ size_t_bits ->
  capacity s = cur_end_ s - cur_ s.
Proof. intros. unfold capacity. apply wrap_small. lia. Qed.

Lemma stack_inv_pointers (s : t L) :
  stack_inv s ->
  0 <= cur_ s /\ cur_ s <= cur_end_ s /\ cur_end_ s < 2 ^ size_t_bits.
Proof.
  intros (b & rest & _ & (Hb1 & Hb2 & Hb3) & H1 & H2 & H3). lia.
Qed.

Lemma align_offset_range (s : t L) alignment :
  0 <= align_offset s alignment < 2 ^ size_t_bits.
Proof. apply wrap_range. Qed.

(** The stack set on a block of the address space. *)
Lemma on_block_fields (l : L) b :
  block_info.ok b ->
  cur_ (on_block l b) = block_info.memory b /\
  cur_end_ (on_block l b) = block_info.memory b + block_info.size b /\
  capacity (on_block l b) = block_info.size b.
Proof.
  intros (H1 & H2 & H3). unfold capacity, on_block; cbn.
  rewrite (wrap_small (_ + _)) by lia.
  repeat split.
  replace (block_info.memory b + block_info.size b - block_info.memory b)
    with (block_info.size b) by lia.
  apply wrap_small. lia.
Qed.

(** A bump that fits the remaining capacity moves the cursor by the
    reduced sum and keeps it at or before [cur_end_]. *)
Lemma bump_cursor (s : t L) offset sz :
  0 <= cur_ s -> cur_ s <= cur_end_ s -> cur_end_ s < 2 ^ size_t_bits ->
  wrap (offset + sz) <= capacity s ->
  cur_ (snd (bump s offset sz)) = cur_ s + wrap (offset + sz).
Proof.
  intros H0 H1 H2 Hfit. rewrite capacity_plain in Hfit by assumption.
  unfold bump; cbn.
  rewrite wrap_add_l, <- Z.add_assoc, <- wrap_add_r.
  apply wrap_small. pose proof (wrap_range (offset + sz)). lia.
Qed.

(** The two ways [allocate] returns. *)
Lemma allocate_cases sz alignment (s : t L) p s' :
  allocate sz alignment s = Ok (p, s') ->
  (wrap (align_offset s alignment + sz) <= capacity s /\
   (p, s') = bump s (align_offset s alignment) sz)
  \/
  (exists b l',
      capacity s < wrap (align_offset s alignment + sz) /\
      block_list.allocate (list_ s) = Some (b, l') /\
      wrap (align_offset (on_block l' b) alignment + sz)
      <= capacity (on_block l' b) /\
      (p, s') = bump (on_block l' b)
                     (align_offset (on_block l' b) alignment) sz).
Proof.
  unfold allocate, allocate_block.
  destruct (Z.ltb_spec (capacity s) (wrap (align_offset s alignment + sz)))
    as [Hlt|Hge].
  - destruct (block_list.allocate (list_ s)) as [[b l']|]; cbn [bind];
      [|discriminate].
    destruct (Z.leb_spec (wrap (align_offset (on_block l' b) alignment + sz))
                         (capacity (on_block l' b))); [|discriminate].
    intros Hr. right. exists b, l'.
    repeat split; try assumption. congruence.
  - intros Hr. left. split; [assumption|congruence].
Qed.

(** [allocate] never releases a block and acquires at most one. *)
Lemma allocate_blocks sz alignment (s : t L) p s' :
  allocate sz alignment s = Ok (p, s') ->
  block_list.blocks (list_ s') = block_list.blocks (list_ s) \/
  exists b, block_list.blocks (list_ s') = b :: block_list.blocks (list_ s).
Proof.
  intros H. apply allocate_cases in H as [[_ H]|(b & l' & _ & Ha & _ & H)].
  - injection H as _ ->. now left.
  - injection H as _ ->. right. exists b. cbn.
    eapply block_list.allocate_blocks, Ha.
Qed.

Lemma stack_inv_on_block (l : L) b l0 :
  block_list.allocate l0 = Some (b, l) -> stack_inv (on_block l b).
Proof.
  intros Ha. pose proof (block_list.allocate_block_ok _ _ _ Ha) as Hb.
  destruct (on_block_fields l b Hb) as (E1 & E2 & _).
  exists b, (block_list.blocks l0). rewrite E1, E2.
  split; [apply (block_list.allocate_blocks _ _ _ Ha)|].
  destruct Hb as (? & ? & ?). repeat split; lia.
Qed.

Lemma stack_inv_bump (s : t L) offset sz :
  stack_inv s -> wrap (offset + sz) <= capacity s ->
  stack_inv (snd (bump s offset sz)).
Proof.
  intros Hinv Hfit. pose proof (stack_inv_pointers _ Hinv) as (H0 & H1 & H2).
  pose proof (bump_cursor s offset sz H0 H1 H2 Hfit) as Hc.
  rewrite capacity_plain in Hfit by assumption.
  destruct Hinv as (b & rest & Hbl & Hb & Hm & Hle & Hend).
  exists b, rest. rewrite Hc. cbn [bump snd list_ cur_end_].
  pose proof (wrap_range (offset + sz)).
  split; [exact Hbl|]. split; [exact Hb|]. lia.
Qed.

Lemma stack_inv_allocate sz alignment (s : t L) p s' :
  stack_inv s -> allocate sz alignment s = Ok (p, s') -> stack_inv s'.
Proof.
  intros Hinv H.
  apply allocate_cases in H as [[Hfit H]|(b & l' & _ & Ha & Hfit & H)].
  - replace s' with (snd (bump s (align_offset s alignment) sz))
      by now rewrite <- H.
    now apply stack_inv_bump.
  - replace s' with
      (snd (bump (on_block l' b) (align_offset (on_block l' b) alignment) sz))
      by now rewrite <- H.
    apply stack_inv_bump; [|exact Hfit].
    eapply stack_inv_on_block, Ha.
Qed.


End allocate_facts.

(** * [top] and [unwind] *)

Section unwind_facts.
Context {L : Type} `{CH : !block_list.chain L}.
Import memory_stack.

(** The count of [unwind], [list_.size() - m.index - 1], for a marker
    whose index is [b - 1] reduced to [std::size_t]. *)
Lemma unwind_diff a b :
  wrap (wrap (wrap a - wrap (wrap b - 1)) - 1) = wrap (a - b).
Proof.
  rewrite wrap_sub_l.
  replace (wrap a - wrap (wrap b - 1) - 1)
    with (wrap a - 1 - wrap (wrap b - 1)) by lia.
  rewrite wrap_sub_r.
  replace (wrap a - 1 - (wrap b - 1)) with (wrap a - wrap b) by lia.
  now rewrite wrap_sub_l, wrap_sub_r.
Qed.

Lemma unwind_diff_top (s s' : t L) :
  wrap (wrap (block_list.size (list_ s') - index (top s)) - 1)
  = wrap (Z.of_nat (length (block_list.blocks (list_ s')))
          - Z.of_nat (length (block_list.blocks (list_ s)))).
Proof.
  cbn [top index]. rewrite !block_list.size_blocks. apply unwind_diff.
Qed.

(** C7: [unwind(top())] with no allocation in between leaves the stack
    as it is: the loop makes no call of [deallocate], the block list (so
    the block count and [next_capacity()]) and both pointers (so
    [capacity()]) are the ones before the call. *)
Theorem unwind_top_noop (fuel : nat) (s : t L) :
  unwind (S fuel) (top s) s = Some s /\
  unwind_loop (S fuel) 0
    (wrap (wrap (block_list.size (list_ s) - index (top s)) - 1)) (list_ s)
  = Some (release 0 (list_ s)).
Proof.
  assert (Hd : wrap (wrap (block_list.size (list_ s) - index (top s)) - 1)
               = 0).
  { rewrite unwind_diff_top, Z.sub_diag. reflexivity. }
  unfold unwind. rewrite Hd. cbn. now destruct s.
Qed.

(** A run of [allocate] calls only pushes blocks. *)
Lemma allocate_all_blocks reqs : forall (s : t L) ptrs s',
  allocate_all reqs s = Ok (ptrs, s') ->
  exists newer,
    block_list.blocks (list_ s') = newer ++ block_list.blocks (list_ s) /\
    (length newer <= length reqs)%nat.
Proof.
  induction reqs as [|[sz alignment] reqs IH]; intros s ptrs s' H.
  - injection H as _ <-. now exists [].
  - cbn [allocate_all] in H.
    destruct (allocate sz alignment s) as [[p s1]|] eqn:Ha; [|discriminate].
    cbn [bind] in H.
    destruct (allocate_all reqs s1) as [[ps s2]|] eqn:Hr; [|discriminate].
    injection H as _ <-.
    destruct (IH _ _ _ Hr) as (newer & E & Hlen).
    apply allocate_blocks in Ha as [E1|[b E1]]; rewrite E, E1.
    + exists newer. split; [reflexivity|cbn; lia].
    + exists (newer ++ [b]). rewrite <- app_assoc. split; [reflexivity|].
      rewrite length_app; cbn; lia.
Qed.



End unwind_facts.

Section unwind_claims.
Context {L : Type} `{CH : !block_list.chain L}.
Import memory_stack.

(** X6: marker, allocations, unwind: for a marker [top()] of [s] and a run of
    [allocate] calls that all return and acquire fewer than 2^32 blocks,
    [unwind] returns, restores [cur_] and [cur_end_] to the saved values
    and calls [deallocate] exactly once per block acquired since the
    marker, newest first, so that the blocks held, the block count and
    [capacity()] are those of the moment the marker was taken. *)
Lemma unwind_restores reqs (s : t L) ptrs s' fuel :
  allocate_all reqs s = Ok (ptrs, s') ->
  let acquired := (length (block_list.blocks (list_ s'))
                   - length (block_list.blocks (list_ s)))%nat in
  Z.of_nat acquired < 2 ^ 32 ->
  (acquired < fuel)%nat ->
  exists s'',
    unwind fuel (top s) s' = Some s'' /\
    cur_ s'' = cur_ s /\ cur_end_ s'' = cur_end_ s /\
    list_ s'' = release acquired (list_ s') /\
    block_list.blocks (list_ s'') = block_list.blocks (list_ s) /\
    block_list.size (list_ s'') = block_list.size (list_ s) /\
    capacity s'' = capacity s.
Proof.
  intros Hrun acquired Hlt Hfuel.
  destruct (allocate_all_blocks _ _ _ _ Hrun) as (newer & Hbl & _).
  assert (Hacq : acquired = length newer).
  { unfold acquired. rewrite Hbl, length_app. lia. }
  assert (Hd : wrap (wrap (block_list.size (list_ s') - index (top s)) - 1)
               = Z.of_nat acquired).
  { rewrite unwind_diff_top, Hbl, length_app, <- Hacq.
    replace (Z.of_nat (acquired + length (block_list.blocks (list_ s)))
             - Z.of_nat (length (block_list.blocks (list_ s))))
      with (Z.of_nat acquired) by lia.
    apply wrap_small. unfold size_t_bits. lia. }
  assert (Hblocks : block_list.blocks (release acquired (list_ s'))
                    = block_list.blocks (list_ s)).
  { rewrite release_blocks, Hbl, Hacq, skipn_app, skipn_all, Nat.sub_diag.
    reflexivity. }
  eexists. unfold unwind. rewrite Hd.
  rewrite (unwind_loop_runs acquired)
    by (try assumption; unfold unsigned_bits; lia).
  split; [reflexivity|]. cbn [list_ cur_ cur_end_ top cur cur_end].
  repeat split; try reflexivity; try assumption.
  now rewrite !block_list.size_blocks, Hblocks.
Qed.


End unwind_claims.

(** * Allocation with and without a block switch *)

Section allocate_claims.
Context {L : Type} `{CH : !block_list.chain L}.
Import memory_stack.

(** A block switch that passes the assertion. *)
Lemma allocate_switch_ok sz alignment (s : t L) b l' :
  capacity s < wrap (align_offset s alignment + sz) ->
  block_list.allocate (list_ s) = Some (b, l') ->
  0 <= sz ->
  align_offset (on_block l' b) alignment + sz <= block_info.size b ->
  exists s',
    allocate sz alignment s
    = Ok (block_info.memory b + align_offset (on_block l' b) alignment, s') /\
    list_ s' = l' /\
    cur_ s'
    = block_info.memory b + align_offset (on_block l' b) alignment + sz /\
    cur_end_ s' = block_info.memory b + block_info.size b.
Proof.
  intros Hex Ha Hsz Hfit.
  pose proof (block_list.allocate_block_ok _ _ _ Ha) as Hb.
  destruct (on_block_fields l' b Hb) as (E1 & E2 & E3).
  pose proof (align_offset_range (on_block l' b) alignment) as Ho.
  set (offset := align_offset (on_block l' b) alignment) in *.
  destruct Hb as (Hb1 & Hb2 & Hb3). unfold size_t_bits in *.
  assert (Hw : wrap (offset + sz) = offset + sz)
    by (apply wrap_small; unfold size_t_bits; lia).
  unfold allocate, allocate_block.
  replace (capacity s <? wrap (align_offset s alignment + sz)) with true
    by (symmetry; apply Z.ltb_lt; exact Hex).
  rewrite Ha. cbn [bind]. fold offset. rewrite Hw, E3.
  replace (offset + sz <=? block_info.size b) with true
    by (symmetry; apply Z.leb_le; exact Hfit).
  unfold bump. rewrite E1.
  rewrite (wrap_small (block_info.memory b + offset))
    by (unfold size_t_bits; lia).
  eexists. split; [reflexivity|]. cbn [list_ cur_ cur_end_].
  split; [reflexivity|]. split; [|exact E2].
  apply wrap_small. unfold size_t_bits. lia.
Qed.

(** X18: a block switch that succeeds.  When the padding plus the size,
    as [allocate] computes it in [std::size_t], exceeds [capacity()], and
    the block list supplies a block that holds the padding [align_offset]
    computes at its start plus the size, then exactly one block is
    acquired, the returned pointer is the start of the block plus that
    padding, and [capacity()] afterwards is the block's size minus that
    padding plus the size. *)
Theorem allocate_switches_block sz alignment (s : t L) b l' :
  capacity s < wrap (align_offset s alignment + sz) ->
  block_list.allocate (list_ s) = Some (b, l') ->
  0 <= sz ->
  align_offset (on_block l' b) alignment + sz <= block_info.size b ->
  exists s',
    allocate sz alignment s
    = Ok (block_info.memory b + align_offset (on_block l' b) alignment, s') /\
    list_ s' = l' /\
    block_list.blocks (list_ s') = b :: block_list.blocks (list_ s) /\
    cur_end_ s' = block_info.memory b + block_info.size b /\
    capacity s'
    = block_info.size b - (align_offset (on_block l' b) alignment + sz).
Proof.
  intros Hex Ha Hsz Hfit.
  destruct (allocate_switch_ok sz alignment s b l' Hex Ha Hsz Hfit)
    as (s' & Hrun & Hl & Hcur & Hend).
  pose proof (block_list.allocate_block_ok _ _ _ Ha) as (Hb1 & Hb2 & Hb3).
  pose proof (align_offset_range (on_block l' b) alignment) as Ho.
  exists s'. split; [exact Hrun|]. split; [exact Hl|].
  split; [rewrite Hl; exact (block_list.allocate_blocks _ _ _ Ha)|].
  split; [exact Hend|].
  unfold capacity. rewrite Hcur, Hend.
  unfold size_t_bits in *.
  rewrite wrap_small by (unfold size_t_bits; lia). lia.
Qed.

(** The other two ends of a block switch: the raw source fails, or the
    acquired block is too small and the assertion fails. *)
Lemma allocate_switch_fails sz alignment (s : t L) :
  capacity s < wrap (align_offset s alignment + sz) ->
  match block_list.allocate (list_ s) with
  | None => allocate sz alignment s = Fail bad_alloc
  | Some (b, l') =>
      capacity (on_block l' b)
      < wrap (align_offset (on_block l' b) alignment + sz) ->
      allocate sz alignment s = Fail assertion_failed
  end.
Proof.
  intros Hex. unfold allocate, allocate_block.
  replace (capacity s <? wrap (align_offset s alignment + sz)) with true
    by (symmetry; apply Z.ltb_lt; exact Hex).
  destruct (block_list.allocate (list_ s)) as [[b l']|]; [|reflexivity].
  intros Hsmall. cbn [bind].
  now replace (wrap (align_offset (on_block l' b) alignment + sz)
               <=? capacity (on_block l' b)) with false
    by (symmetry; apply Z.leb_gt; exact Hsmall).
Qed.

Lemma padded_total_nonneg reqs : forall (s : t L),
  Forall (fun r => 0 <= fst r) reqs -> 0 <= padded_total reqs s.
Proof.
  induction reqs as [|[sz alignment] reqs IH]; intros s Hs; [cbn; lia|].
  inversion Hs as [|? ? Hsz Hrest]; subst. cbn [padded_total fst] in *.
  pose proof (align_offset_range s alignment).
  pose proof (IH (snd (bump s (align_offset s alignment) sz)) Hrest). lia.
Qed.

(** X19: when the sizes of a run of requests plus the paddings the
    source's [align_offset] computes for them fit the remaining capacity,
    every call returns without touching the block list, every returned
    range lies between the old and the new cursor and ends at or before
    the start of each later one, and the returned pointers are strictly
    increasing when no size is 0. *)
Theorem allocations_within_block reqs : forall (s : t L),
  stack_inv s ->
  Forall (fun r => 0 <= fst r) reqs ->
  padded_total reqs s <= capacity s ->
  exists ptrs s',
    allocate_all reqs s = Ok (ptrs, s') /\
    list_ s' = list_ s /\
    cur_ s' = cur_ s + padded_total reqs s /\
    cur_end_ s' = cur_end_ s /\
    length ptrs = length reqs /\
    Forall (fun p => cur_ s <= p) ptrs /\
    Forall (fun r => fst r + snd r <= cur_ s') (combine ptrs (map fst reqs)) /\
    ranges_ascending (combine ptrs (map fst reqs)) /\
    (Forall (fun r => 0 < fst r) reqs -> StronglySorted Z.lt ptrs).
Proof.
  induction reqs as [|[sz alignment] reqs IH]; intros s Hinv Hsizes Hfit.
  - exists [], s. cbn. rewrite Z.add_0_r.
    repeat split; constructor.
  - inversion Hsizes as [|? ? Hsz Hrest]; subst. cbn [fst] in Hsz.
    cbn [padded_total] in *.
    pose proof (stack_inv_pointers _ Hinv) as (H0 & H1 & H2).
    pose proof (align_offset_range s alignment) as Ho.
    set (offset := align_offset s alignment) in *.
    set (s1 := snd (bump s offset sz)) in *.
    pose proof (padded_total_nonneg reqs s1 Hrest) as Hnn.
    pose proof (capacity_plain s H0 H1 H2) as Hcap.
    unfold size_t_bits in *.
    assert (Hw : wrap (offset + sz) = offset + sz)
      by (apply wrap_small; unfold size_t_bits; lia).
    assert (Hfit1 : wrap (offset + sz) <= capacity s) by lia.
    pose proof (bump_cursor s offset sz H0 H1 H2 Hfit1) as Hc.
    fold s1 in Hc. rewrite Hw in Hc.
    pose proof (stack_inv_bump s offset sz Hinv Hfit1) as Hinv1.
    fold s1 in Hinv1.
    assert (Hend1 : cur_end_ s1 = cur_end_ s) by reflexivity.
    assert (Hl1 : list_ s1 = list_ s) by reflexivity.
    assert (Hp : fst (bump s offset sz) = cur_ s + offset).
    { unfold bump; cbn [fst]. apply wrap_small. unfold size_t_bits. lia. }
    assert (Hs1 : snd (bump s offset sz) = s1) by reflexivity.
    clearbody s1.
    pose proof (stack_inv_pointers _ Hinv1) as (H0' & H1' & H2').
    pose proof (capacity_plain s1 H0' H1' H2') as Hcap1.
    destruct (IH s1 Hinv1 Hrest ltac:(lia))
      as (ptrs & s' & Hrun & Hl & Hcur & Hend & Hlen & Hlow & Hhigh
          & Hasc & Hstrict).
    exists (cur_ s + offset :: ptrs), s'.
    split.
    { cbn [allocate_all]. unfold allocate. fold offset.
      replace (capacity s <? wrap (offset + sz)) with false
        by (symmetry; apply Z.ltb_ge; exact Hfit1).
      cbn [bind]. rewrite (surjective_pairing (bump s offset sz)).
      rewrite Hs1, Hrun, Hp. reflexivity. }
    split; [congruence|]. split; [lia|]. split; [congruence|].
    split; [cbn; congruence|].
    split.
    { constructor; [lia|]. eapply Forall_impl; [|exact Hlow].
      cbn. intros; lia. }
    split.
    { cbn [map combine fst]. constructor; [cbn; lia|exact Hhigh]. }
    split.
    { cbn [map combine fst]. constructor; [exact Hasc|].
      clear - Hlow Hc. revert Hlow. generalize (map fst reqs).
      induction ptrs as [|q ptrs IHp]; intros sizes Hlow; [constructor|].
      destruct sizes as [|n sizes]; [constructor|].
      inversion Hlow; subst. cbn [combine].
      constructor; [cbn; lia|now apply IHp]. }
    intros Hpos. inversion Hpos as [|? ? Hsz' Hpos']; subst.
    cbn [fst] in Hsz'.
    constructor; [now apply Hstrict|].
    eapply Forall_impl; [|exact Hlow].
    intros q Hq. cbv beta in Hq. lia.
Qed.

End allocate_claims.

(** * A run that acquires 2^32 blocks *)

Section fixed_chain_runs.
Import memory_stack examples.

Lemma align_offset_1 {L : Type} `{CH : !block_list.chain L} (s : t L) :
  align_offset s 1 = 0.
Proof.
  unfold align_offset. change (wrap (1 - 1)) with 0.
  now rewrite Z.land_0_r.
Qed.

(** On a full block of the 16-byte list, [allocate(16, 1)] acquires the
    next block and fills it. *)
Lemma fill_step (s : t bump_chain.state) :
  full_fixed16 s -> cur_ s + 16 < 2 ^ 64 ->
  exists s',
    allocate 16 1 s = Ok (cur_ s, s') /\
    full_fixed16 s' /\
    cur_ s' = cur_ s + 16 /\
    bump_chain.held (list_ s')
    = block (cur_ s) 16 :: bump_chain.held (list_ s).
Proof.
  intros (Hg & Hn & Hbrk & Hend & H0) Hlt.
  set (l' := {| bump_chain.held :=
                  block (cur_ s) 16 :: bump_chain.held (list_ s);
                bump_chain.brk := cur_ s + 16;
                bump_chain.next_size := 16;
                bump_chain.growth := 1 |}).
  assert (Ha : block_list.allocate (list_ s) = Some (block (cur_ s) 16, l')).
  { cbn [block_list.allocate bump_chain.bump_chain_is_chain].
    unfold bump_chain.allocate. rewrite Hg, Hn, Hbrk.
    replace (0 <=? cur_ s) with true by (symmetry; apply Z.leb_le; lia).
    replace (cur_ s + 16 <? 2 ^ size_t_bits) with true
      by (symmetry; apply Z.ltb_lt; unfold size_t_bits; lia).
    reflexivity. }
  assert (Hex : capacity s < wrap (align_offset s 1 + 16)).
  { rewrite align_offset_1. unfold capacity. rewrite Hend, Z.sub_diag.
    reflexivity. }
  destruct (allocate_switch_ok 16 1 s _ _ Hex Ha ltac:(lia))
    as (s' & Hrun & Hl & Hcur & Hce).
  { rewrite align_offset_1. cbn. lia. }
  rewrite align_offset_1, Z.add_0_r in Hrun, Hcur.
  cbn [block block_info.memory block_info.size] in Hrun, Hcur, Hce.
  exists s'. split; [exact Hrun|].
  split; [|split; [exact Hcur|now rewrite Hl]].
  unfold full_fixed16. rewrite Hl, Hcur, Hce. cbn. lia.
Qed.

(** [n] such requests acquire [n] blocks. *)
Lemma fill_run n : forall (s : t bump_chain.state),
  full_fixed16 s -> cur_ s + 16 * Z.of_nat n < 2 ^ 64 ->
  exists ptrs s',
    allocate_all (repeat (16, 1) n) s = Ok (ptrs, s') /\
    length (bump_chain.held (list_ s'))
    = (n + length (bump_chain.held (list_ s)))%nat.
Proof.
  induction n as [|n IH]; intros s Hs Hlt.
  - now exists [], s.
  - destruct (fill_step s Hs ltac:(lia)) as (s1 & Hrun & Hs1 & Hcur & Hheld).
    destruct (IH s1 Hs1 ltac:(lia)) as (ptrs & s' & Hrest & Hlen).
    exists (cur_ s :: ptrs), s'. split.
    + cbn [repeat allocate_all]. rewrite Hrun. cbn [bind].
      rewrite Hrest. reflexivity.
    + rewrite Hlen, Hheld. cbn [length]. lia.
Qed.


Lemma full16_reached :
  (do s <- make_on fixed16; do (_, s1) <- allocate 16 1 s; Ok s1)
  = Ok full16.
Proof. reflexivity. Qed.

Lemma full16_is_full : full_fixed16 full16.
Proof. unfold full_fixed16; cbn. repeat split; lia. Qed.

(** After the 2^32 requests the list holds 2^32 blocks more than at the
    marker, and that is the count [unwind] computes. *)
Lemma run_2p32 :
  exists ptrs s',
    allocate_all requests_2p32 full16 = Ok (ptrs, s') /\
    block_list.size (list_ s') = 2 ^ 32 + 1 /\
    wrap (wrap (block_list.size (list_ s') - index (top full16)) - 1)
    = 2 ^ 32.
Proof.
  destruct (fill_run (Z.to_nat (2 ^ 32)) full16 full16_is_full)
    as (ptrs & s' & Hrun & Hlen).
  { rewrite Z2Nat.id by lia. cbn [cur_ full16]. lia. }
  exists ptrs, s'. split; [exact Hrun|].
  assert (Hn : Z.of_nat (length (block_list.blocks (list_ s')))
               = 2 ^ 32 + 1).
  { cbn [block_list.blocks bump_chain.bump_chain_is_chain].
    rewrite Hlen, Nat2Z.inj_add, Z2Nat.id by lia. reflexivity. }
  split.
  - rewrite block_list.size_blocks, Hn. reflexivity.
  - rewrite unwind_diff_top, Hn. reflexivity.
Qed.

(** C3: a marker is taken on the stack [full16], then 2^32 calls
    [allocate(16, 1)] each acquire a block; [unwind] of the marker counts
    [diff = 2^32], which its [unsigned] counter never equals: the call
    does not return, with whatever fuel, and restores nothing. *)
Theorem unwind_after_2p32_blocks_never_returns :
  exists ptrs s',
    allocate_all requests_2p32 full16 = Ok (ptrs, s') /\
    forall fuel, unwind fuel (top full16) s' = None.
Proof.
  destruct run_2p32 as (ptrs & s' & Hrun & _ & Hd).
  exists ptrs, s'. split; [exact Hrun|]. intros fuel.
  unfold unwind. rewrite Hd.
  rewrite unwind_loop_diverges; [reflexivity| |]; unfold unsigned_bits; lia.
Qed.

(** C10: with 2^32 + 1 blocks in the list and a marker of index 0 the
    precondition [index <= block_count - 1] holds and the subtraction
    does not underflow: the count is 2^32.  The loop compares it with an
    [unsigned] counter, which passes from 2^32 - 1 to 0: the loop never
    ends, so it does not perform exactly 2^32 deallocations. *)
Theorem unwind_loop_count_not_reached :
  exists ptrs s',
    allocate_all requests_2p32 full16 = Ok (ptrs, s') /\
    index (top full16) = 0 /\
    index (top full16) <= block_list.size (list_ s') - 1 /\
    wrap (wrap (block_list.size (list_ s') - index (top full16)) - 1)
    = block_list.size (list_ s') - index (top full16) - 1 /\
    block_list.size (list_ s') - index (top full16) - 1 = 2 ^ 32 /\
    forall fuel, unwind_loop fuel 0 (2 ^ 32) (list_ s') = None.
Proof.
  destruct run_2p32 as (ptrs & s' & Hrun & Hsz & Hd).
  exists ptrs, s'. split; [exact Hrun|].
  assert (Hi : index (top full16) = 0) by reflexivity.
  rewrite Hd, Hsz, Hi.
  repeat split; try reflexivity; try lia.
  intros fuel. apply unwind_loop_diverges; unfold unsigned_bits; lia.
Qed.

End fixed_chain_runs.

(** * The count of [unwind] *)

Section unwind_count.

(** With [index <= block_count - 1] the subtraction does not wrap. *)
Lemma unwind_count_in_range count idx :
  0 <= idx -> idx <= count - 1 -> count < 2 ^ size_t_bits ->
  wrap (wrap (count - idx) - 1) = count - idx - 1.
Proof.
  unfold size_t_bits. intros H0 H1 H2.
  rewrite (wrap_small (count - idx)) by (unfold size_t_bits; lia).
  apply wrap_small. unfold size_t_bits. lia.
Qed.

(** With [index >= block_count] it wraps around to 2^64 minus the
    excess. *)
Lemma unwind_count_wraps count idx :
  0 <= count -> count <= idx -> idx < count + 2 ^ size_t_bits - 1 ->
  wrap (wrap (count - idx) - 1) = 2 ^ size_t_bits - (idx - count + 1).
Proof.
  unfold size_t_bits. intros H0 H1 H2.
  rewrite wrap_sub_l. unfold wrap, size_t_bits.
  replace (count - idx - 1) with (2 ^ 64 - (idx - count + 1) + -1 * 2 ^ 64)
    by lia.
  rewrite Z.mod_add by lia. apply Z.mod_small. lia.
Qed.

End unwind_count.

(** * The adapter *)

Section stack_allocator_claims.
Context {L : Type} `{CH : !block_list.chain L}.
Import memory_stack stack_allocator.

(** C8: [deallocate_node] leaves every stack as it is; the stack the
    adapter refers to keeps its block list (no block is released) and
    both pointers. *)
Theorem deallocate_node_noop (a : stack_allocator.t) p sz alignment
        (st : store (L := L)) :
  deallocate_node a p sz alignment st = st /\
  list_ (get_memory a (deallocate_node a p sz alignment st))
  = list_ (get_memory a st) /\
  block_list.size (list_ (get_memory a (deallocate_node a p sz alignment st)))
  = block_list.size (list_ (get_memory a st)) /\
  cur_ (get_memory a (deallocate_node a p sz alignment st))
  = cur_ (get_memory a st) /\
  cur_end_ (get_memory a (deallocate_node a p sz alignment st))
  = cur_end_ (get_memory a st).
Proof. repeat split. Qed.

End stack_allocator_claims.

(** * Runs on concrete stacks *)

Section concrete_runs.
Import memory_stack examples.

Lemma make_16 : make 16 = Ok stack_16.
Proof. reflexivity. Qed.

Lemma stack_inv_stack_1024 : stack_inv stack_1024.
Proof.
  exists (block 4096 1024), []. unfold block_info.ok, size_t_bits; cbn.
  repeat split; lia.
Defined.

(** Two requests of 0 bytes fit any capacity and return the same
    pointer: the pointers of a run are strictly increasing only when the
    sizes are not 0. *)
Lemma zero_size_pointers_repeat :
  padded_total [(0, 1); (0, 1)] stack_1024 <= capacity stack_1024 /\
  allocate_all [(0, 1); (0, 1)] stack_1024 = Ok ([4096; 4096], stack_1024) /\
  ~ StronglySorted Z.lt [4096; 4096].
Proof.
  split; [cbn; lia|]. split; [reflexivity|].
  intros H. inversion H as [|? ? _ Hall]; subst.
  inversion Hall as [|? ? Hlt _]; subst. lia.
Qed.

End concrete_runs.

(** * The theorems at concrete inputs *)

Section witnesses.
Import memory_stack examples.

Lemma align_offset_agrees_iff_witness :
  is_pow2 16 /\
  (align_offset stack_1024 16 = padding_spec (cur_ stack_1024) 16
   <-> cur_ stack_1024 mod 16 = 0 \/ cur_ stack_1024 mod 16 = 1).
Proof.
  assert (Hp : is_pow2 16).
  { exists 4. split; [unfold size_t_bits; lia|reflexivity]. }
  split; [exact Hp|].
  apply (align_offset_agrees_iff stack_1024 16 Hp).
Defined.

Lemma unwind_restores_witness :
  allocate_all [(100, 16); (50, 16); (900, 16)] stack_1024
  = Ok ([4096; 4244; 5120], stack_1024_after) /\
  exists s'',
    unwind 2 (top stack_1024) stack_1024_after = Some s'' /\
    cur_ s'' = 4096 /\ cur_end_ s'' = 5120 /\
    list_ s'' = release 1 (list_ stack_1024_after) /\
    block_list.blocks (list_ s'') = [block 4096 1024] /\
    block_list.size (list_ s'') = 1 /\
    capacity s'' = 1024.
Proof.
  assert (Hrun : allocate_all [(100, 16); (50, 16); (900, 16)] stack_1024
                 = Ok ([4096; 4244; 5120], stack_1024_after))
    by reflexivity.
  split; [exact Hrun|].
  apply (unwind_restores _ stack_1024 _ stack_1024_after 2 Hrun);
    cbn; lia.
Defined.

Lemma allocate_switches_block_witness :
  capacity stack_16 < wrap (align_offset stack_16 1 + 20) /\
  exists s',
    allocate 20 1 stack_16 = Ok (4112, s') /\
    list_ s' = chain_16_next /\
    block_list.blocks (list_ s') = [block 4112 32; block 4096 16] /\
    cur_end_ s' = 4144 /\
    capacity s' = 12.
Proof.
  assert (Hex : capacity stack_16 < wrap (align_offset stack_16 1 + 20))
    by (vm_compute; reflexivity).
  assert (Ha : block_list.allocate (list_ stack_16)
               = Some (block 4112 32, chain_16_next)) by reflexivity.
  split; [exact Hex|].
  apply (allocate_switches_block 20 1 stack_16 (block 4112 32) chain_16_next
           Hex Ha); cbn; lia.
Defined.

Lemma allocations_within_block_witness :
  padded_total [(100, 16); (50, 16)] stack_1024 <= capacity stack_1024 /\
  exists ptrs s',
    allocate_all [(100, 16); (50, 16)] stack_1024 = Ok (ptrs, s') /\
    list_ s' = list_ stack_1024 /\
    cur_ s' = 4096 + 198 /\
    cur_end_ s' = 5120 /\
    length ptrs = 2%nat /\
    Forall (fun p => 4096 <= p) ptrs /\
    Forall (fun r => fst r + snd r <= cur_ s') (combine ptrs [100; 50]) /\
    ranges_ascending (combine ptrs [100; 50]) /\
    (Forall (fun r => 0 < fst r) [(100, 16); (50, 16)] ->
     StronglySorted Z.lt ptrs).
Proof.
  assert (Hfit : padded_total [(100, 16); (50, 16)] stack_1024
                 <= capacity stack_1024) by (vm_compute; discriminate).
  split; [exact Hfit|].
  apply (allocations_within_block [(100, 16); (50, 16)] stack_1024
           stack_inv_stack_1024).
  - repeat constructor; cbn; lia.
  - exact Hfit.
Defined.


End witnesses.

(** * More on [allocate]: requests that fit *)

Section allocate_fits.
Context {L : Type} `{CH : !block_list.chain L}.
Import memory_stack.

(** A request that fits takes the bump alone. *)
Lemma allocate_fits_eq sz alignment (s : t L) :
  wrap (align_offset s alignment + sz) <= capacity s ->
  allocate sz alignment s = Ok (bump s (align_offset s alignment) sz).
Proof.
  intros Hfit. unfold allocate.
  now replace (capacity s <? wrap (align_offset s alignment + sz))
    with false by (symmetry; apply Z.ltb_ge; exact Hfit).
Qed.

(** X1: an [allocate] whose padded size fits [capacity()] returns
    without touching the block list: [cur_end_] and [next_capacity()] are
    unchanged, the cursor moves forward by the padded size and
    [capacity()] shrinks by exactly that amount. *)
Theorem allocate_within_capacity sz alignment (s : t L) :
  stack_inv s ->
  wrap (align_offset s alignment + sz) <= capacity s ->
  exists p s',
    allocate sz alignment s = Ok (p, s') /\
    p = wrap (cur_ s + align_offset s alignment) /\
    list_ s' = list_ s /\
    cur_end_ s' = cur_end_ s /\
    next_capacity s' = next_capacity s /\
    cur_ s <= cur_ s' /\
    cur_ s' = cur_ s + wrap (align_offset s alignment + sz) /\
    capacity s' = capacity s - wrap (align_offset s alignment + sz).
Proof.
  intros Hinv Hfit.
  pose proof (stack_inv_pointers _ Hinv) as (H0 & H1 & H2).
  pose proof (bump_cursor s _ sz H0 H1 H2 Hfit) as Hc.
  pose proof (wrap_range (align_offset s alignment + sz)) as Hw.
  pose proof (capacity_plain s H0 H1 H2) as Hcap.
  exists (fst (bump s (align_offset s alignment) sz)),
         (snd (bump s (align_offset s alignment) sz)).
  rewrite <- surjective_pairing.
  split; [now apply allocate_fits_eq|].
  split; [reflexivity|]. split; [reflexivity|]. split; [reflexivity|].
  split; [reflexivity|]. split; [lia|]. split; [exact Hc|].
  unfold capacity at 1. rewrite Hc. cbn [bump snd cur_end_].
  unfold size_t_bits in *.
  rewrite wrap_small by (unfold size_t_bits; lia). lia.
Qed.

(** X12: a request of no bytes with alignment 1 always fits, even in a
    full block: it returns the cursor and leaves the stack as it is. *)
Theorem allocate_zero_bytes (s : t L) :
  stack_inv s -> allocate 0 1 s = Ok (cur_ s, s).
Proof.
  intros Hinv. pose proof (stack_inv_pointers _ Hinv) as (H0 & H1 & H2).
  assert (Ho : align_offset s 1 = 0).
  { unfold align_offset. change (wrap (1 - 1)) with 0.
    now rewrite Z.land_0_r. }
  rewrite allocate_fits_eq; rewrite Ho.
  - unfold bump. rewrite !Z.add_0_r, wrap_wrap, wrap_small by lia.
    now destruct s.
  - change (wrap (0 + 0)) with 0. rewrite capacity_plain by assumption. lia.
Qed.

(** X13: byte-aligned requests are contiguous: [allocate(a, 1)] followed
    by [allocate(b, 1)], both within the capacity, return the cursor and
    the cursor plus [a], and use up exactly [a + b] bytes. *)
Theorem allocate_bytes_contiguous a b (s : t L) :
  stack_inv s -> 0 <= a -> 0 <= b -> a + b <= capacity s ->
  exists s1 s2,
    allocate a 1 s = Ok (cur_ s, s1) /\
    allocate b 1 s1 = Ok (cur_ s + a, s2) /\
    list_ s2 = list_ s /\
    capacity s2 = capacity s - (a + b).
Proof.
  intros Hinv Ha Hb Hfit.
  pose proof (stack_inv_pointers _ Hinv) as (H0 & H1 & H2).
  pose proof (capacity_plain s H0 H1 H2) as Hcap.
  assert (Ho : forall s0 : t L, align_offset s0 1 = 0).
  { intros s0. unfold align_offset. change (wrap (1 - 1)) with 0.
    now rewrite Z.land_0_r. }
  unfold size_t_bits in *.
  set (s1 := {| list_ := list_ s; cur_ := cur_ s + a;
                cur_end_ := cur_end_ s |}).
  set (s2 := {| list_ := list_ s; cur_ := cur_ s + a + b;
                cur_end_ := cur_end_ s |}).
  assert (Hcap1 : capacity s1 = cur_end_ s - (cur_ s + a)).
  { apply capacity_plain; cbn; unfold size_t_bits; lia. }
  exists s1, s2. split; [|split; [|split; [reflexivity|]]].
  - rewrite allocate_fits_eq
      by (rewrite Ho, Z.add_0_l, wrap_small; unfold size_t_bits; lia).
    rewrite Ho. unfold bump. rewrite Z.add_0_r.
    rewrite (wrap_small (cur_ s)) by (unfold size_t_bits; lia).
    rewrite wrap_small by (unfold size_t_bits; lia). reflexivity.
  - rewrite allocate_fits_eq
      by (rewrite Ho, Z.add_0_l, wrap_small; unfold size_t_bits; lia).
    rewrite Ho. unfold bump. rewrite Z.add_0_r. subst s1 s2.
    cbn [cur_ list_ cur_end_].
    rewrite (wrap_small (cur_ s + a)) by (unfold size_t_bits; lia).
    rewrite wrap_small by (unfold size_t_bits; lia). reflexivity.
  - unfold capacity at 1. subst s2. cbn [cur_ cur_end_].
    rewrite wrap_small by (unfold size_t_bits; lia). lia.
Qed.

End allocate_fits.

(** * More on [allocate]: failures, ranges, alignment *)

Section allocate_more.
Context {L : Type} `{CH : !block_list.chain L}.
Import memory_stack.

(** X3: a run of [allocate] calls that all return gives one pointer per
    request, releases no block and acquires at most one block per call. *)
Theorem allocate_all_pushes_blocks reqs : forall (s : t L) ptrs s',
  allocate_all reqs s = Ok (ptrs, s') ->
  length ptrs = length reqs /\
  exists newer,
    block_list.blocks (list_ s') = newer ++ block_list.blocks (list_ s) /\
    (length newer <= length reqs)%nat.
Proof.
  intros s ptrs s' H. split; [|exact (allocate_all_blocks _ _ _ _ H)].
  revert s ptrs s' H.
  induction reqs as [|[sz alignment] reqs IH]; intros s ptrs s' H.
  - now injection H as <- _.
  - cbn [allocate_all] in H.
    destruct (allocate sz alignment s) as [[p s1]|]; [|discriminate].
    cbn [bind] in H.
    destruct (allocate_all reqs s1) as [[ps s2]|] eqn:Hr; [|discriminate].
    injection H as <- _. cbn [length]. f_equal. exact (IH _ _ _ Hr).
Qed.

(** The padding of a power of two up to 2^31 is below 2^62. *)
Lemma align_offset_small (s : t L) alignment :
  is_pow2 alignment -> alignment <= 2 ^ 31 ->
  0 <= align_offset s alignment < 2 ^ 62.
Proof.
  intros Hp Hle. rewrite align_offset_pow2 by exact Hp.
  pose proof (is_pow2_bounds _ Hp) as Hb.
  pose proof (Z.mod_pos_bound (cur_ s) alignment ltac:(lia)) as Hm.
  set (m := cur_ s mod alignment) in *.
  rewrite wrap_small; [nia|]. unfold size_t_bits. nia.
Qed.

(** The range of a bump that fits without overflow. *)
Lemma bump_range (s : t L) offset sz :
  stack_inv s -> 0 <= offset -> 0 <= sz -> offset + sz < 2 ^ 64 ->
  wrap (offset + sz) <= capacity s ->
  cur_ s <= fst (bump s offset sz) /\
  fst (bump s offset sz) + sz = cur_ (snd (bump s offset sz)) /\
  cur_ (snd (bump s offset sz)) <= cur_end_ s.
Proof.
  intros Hinv Ho Hsz Hsum Hfit.
  pose proof (stack_inv_pointers _ Hinv) as (H0 & H1 & H2).
  pose proof (bump_cursor s offset sz H0 H1 H2 Hfit) as Hc.
  rewrite capacity_plain in Hfit by assumption.
  unfold size_t_bits in *.
  rewrite wrap_small in Hfit, Hc by (unfold size_t_bits; lia).
  rewrite Hc. unfold bump; cbn [fst].
  rewrite wrap_small by (unfold size_t_bits; lia). lia.
Qed.


(** X5: the sum in [offset + size > capacity()] is not guarded against
    overflow: when the padding plus the size reaches 2^64 and the reduced
    sum fits, [allocate] returns without a block switch and moves the
    cursor by fewer than [size] bytes. *)
Theorem allocate_overflow_short sz alignment (s : t L) :
  stack_inv s -> 0 <= sz < 2 ^ 64 ->
  2 ^ 64 <= align_offset s alignment + sz ->
  wrap (align_offset s alignment + sz) <= capacity s ->
  exists p s',
    allocate sz alignment s = Ok (p, s') /\
    list_ s' = list_ s /\
    cur_ s' = cur_ s + (align_offset s alignment + sz - 2 ^ 64) /\
    cur_ s' - cur_ s < sz.
Proof.
  intros Hinv Hsz Hov Hfit.
  pose proof (stack_inv_pointers _ Hinv) as (H0 & H1 & H2).
  pose proof (bump_cursor s _ sz H0 H1 H2 Hfit) as Hc.
  pose proof (align_offset_range s alignment) as Ho.
  unfold size_t_bits in *.
  assert (Hw : wrap (align_offset s alignment + sz)
               = align_offset s alignment + sz - 2 ^ 64).
  { unfold wrap, size_t_bits.
    replace (align_offset s alignment + sz)
      with (align_offset s alignment + sz - 2 ^ 64 + 1 * 2 ^ 64) at 1 by lia.
    rewrite Z.mod_add by lia. apply Z.mod_small. lia. }
  exists (fst (bump s (align_offset s alignment) sz)),
         (snd (bump s (align_offset s alignment) sz)).
  rewrite <- surjective_pairing.
  split; [now apply allocate_fits_eq|]. split; [reflexivity|].
  rewrite Hc, Hw. split; lia.
Qed.

(** X10: the constructor fails with [bad_alloc] when the block list
    supplies no first block; otherwise the stack stands at the start of
    that block: the cursor is its address, [capacity()] its size, it is
    the only block and [top()] has index 0. *)
Theorem make_first_block block_size :
  match block_list.allocate (block_list.create (L := L) block_size) with
  | None => make (L := L) block_size = Fail bad_alloc
  | Some (b, l') =>
      exists s,
        make block_size = Ok s /\
        list_ s = l' /\
        block_list.blocks (list_ s) = [b] /\
        cur_ s = block_info.memory b /\
        capacity s = block_info.size b /\
        index (top s) = 0
  end.
Proof.
  unfold make, make_on, allocate_block. cbn [list_].
  destruct (block_list.allocate (block_list.create block_size))
    as [[b l']|] eqn:Ha; [|reflexivity].
  pose proof (block_list.allocate_block_ok _ _ _ Ha) as Hb.
  destruct (on_block_fields l' b Hb) as (E1 & _ & E3).
  pose proof (block_list.allocate_blocks _ _ _ Ha) as Hbl.
  rewrite block_list.create_blocks in Hbl.
  exists (on_block l' b). repeat split; try assumption.
  cbn [top index on_block list_].
  now rewrite block_list.size_blocks, Hbl.
Qed.

End allocate_more.

(** * When the returned pointer is aligned *)

Section allocate_alignment.
Context {L : Type} `{CH : !block_list.chain L}.
Import memory_stack.

(** A power of two divides [m * (m - 1)], for [m] below it, only when [m]
    is 0 or 1. *)
Lemma pow2_divides_consecutive alignment m :
  is_pow2 alignment -> 0 <= m < alignment ->
  ((alignment | m * (m - 1)) <-> m = 0 \/ m = 1).
Proof.
  intros (k & Hk & ->) Hm. split.
  - intros Hd.
    destruct (Z.eq_dec m 0) as [|H0]; [now left|].
    destruct (Z.eq_dec m 1) as [|H1]; [now right|]. exfalso.
    destruct (Z.odd m) eqn:Hodd.
    + apply Z.gauss in Hd; [|apply odd_coprime_pow2; [lia|exact Hodd]].
      apply Z.divide_pos_le in Hd; lia.
    + rewrite Z.mul_comm in Hd.
      apply Z.gauss in Hd;
        [|apply odd_coprime_pow2; [lia|now rewrite Z.odd_sub, Hodd]].
      apply Z.divide_pos_le in Hd; lia.
  - intros [->| ->]; exists 0; reflexivity.
Qed.

(** The cursor moved by the padding of [align_offset] is a multiple of
    the alignment exactly when the cursor was 0 or 1 past a multiple. *)
Lemma padded_cursor_aligned_iff (s : t L) alignment :
  is_pow2 alignment ->
  (wrap (cur_ s + align_offset s alignment) mod alignment = 0
   <-> cur_ s mod alignment = 0 \/ cur_ s mod alignment = 1).
Proof.
  intros Hp. pose proof (is_pow2_bounds _ Hp) as Hb.
  pose proof (Z.mod_pos_bound (cur_ s) alignment ltac:(lia)) as Hm.
  assert (Hdiv : (alignment | 2 ^ size_t_bits)).
  { destruct Hp as (k & Hk & ->). unfold size_t_bits in *.
    exists (2 ^ (64 - k)). rewrite <- Z.pow_add_r by lia. f_equal. lia. }
  rewrite align_offset_pow2 by exact Hp. unfold wrap.
  rewrite Z.mod_mod_divide by exact Hdiv.
  rewrite <- Zplus_mod_idemp_r, Z.mod_mod_divide by exact Hdiv.
  rewrite Zplus_mod_idemp_r.
  rewrite Z.mod_divide by lia.
  rewrite <- (pow2_divides_consecutive alignment _ Hp Hm).
  pose proof (Z.div_mod (cur_ s) alignment ltac:(lia)) as Hcur.
  set (m := cur_ s mod alignment) in *.
  set (q := cur_ s / alignment) in *.
  split; intros [z Hz].
  - exists (q + m - z). lia.
  - exists (q + m - z). lia.
Qed.

(** X11: for a power-of-two alignment, the pointer [allocate] returns is
    a multiple of the alignment exactly when the cursor it pads -- the
    old cursor, or the start of the new block after a switch -- is 0 or 1
    past a multiple of the alignment. *)
Theorem allocate_aligned_iff sz alignment (s : t L) p s' :
  is_pow2 alignment ->
  allocate sz alignment s = Ok (p, s') ->
  (wrap (align_offset s alignment + sz) <= capacity s /\
   (p mod alignment = 0
    <-> cur_ s mod alignment = 0 \/ cur_ s mod alignment = 1))
  \/
  (capacity s < wrap (align_offset s alignment + sz) /\
   exists b l',
     block_list.allocate (list_ s) = Some (b, l') /\
     (p mod alignment = 0
      <-> block_info.memory b mod alignment = 0
          \/ block_info.memory b mod alignment = 1)).
Proof.
  intros Hp H.
  apply allocate_cases in H as [[Hfit Hb]|(b & l' & Hex & Ha & Hfit & Hb)].
  - left. split; [exact Hfit|].
    replace p with (wrap (cur_ s + align_offset s alignment))
      by (change p with (fst (p, s')); now rewrite Hb).
    now apply padded_cursor_aligned_iff.
  - right. split; [exact Hex|]. exists b, l'. split; [exact Ha|].
    replace p with (wrap (cur_ (on_block l' b)
                          + align_offset (on_block l' b) alignment))
      by (change p with (fst (p, s')); now rewrite Hb).
    now apply padded_cursor_aligned_iff.
Qed.

(** X17: for a power-of-two alignment up to 2^32 the padding of
    [align_offset] is never less than the padding that aligns the cursor,
    and at most a quarter of the alignment squared. *)
Theorem align_offset_bounds (s : t L) alignment :
  is_pow2 alignment -> alignment <= 2 ^ 32 ->
  padding_spec (cur_ s) alignment <= align_offset s alignment /\
  4 * align_offset s alignment <= alignment * alignment.
Proof.
  intros Hp Hle. rewrite align_offset_pow2 by exact Hp. unfold padding_spec.
  pose proof (is_pow2_bounds _ Hp) as Hb.
  pose proof (Z.mod_pos_bound (cur_ s) alignment ltac:(lia)) as Hm.
  set (m := cur_ s mod alignment) in *. clearbody m.
  pose proof (Z.square_nonneg (alignment - 2 * m)) as Hsq.
  assert (Hq : 4 * (m * (alignment - m)) <= alignment * alignment) by lia.
  rewrite wrap_small by (unfold size_t_bits; nia).
  split; [|exact Hq].
  destruct (Z.eqb_spec m 0) as [->|Hne]; [lia|].
  assert (0 <= (m - 1) * (alignment - m)) by (apply Z.mul_nonneg_nonneg; lia).
  lia.
Qed.

End allocate_alignment.

(** * More on [unwind] *)

Section unwind_more.
Context {L : Type} `{CH : !block_list.chain L}.
Import memory_stack.

(** [unwind] with a marker whose index names a block of the list, fewer
    than 2^32 blocks above it. *)
Lemma unwind_in_range fuel m (s : t L) :
  0 <= index m < Z.of_nat (length (block_list.blocks (list_ s))) ->
  Z.of_nat (length (block_list.blocks (list_ s))) < 2 ^ 64 ->
  Z.of_nat (length (block_list.blocks (list_ s))) - index m - 1 < 2 ^ 32 ->
  (Z.to_nat (Z.of_nat (length (block_list.blocks (list_ s))) - index m - 1)
   < fuel)%nat ->
  unwind fuel m s
  = Some {| list_ :=
              release
                (Z.to_nat (Z.of_nat (length (block_list.blocks (list_ s)))
                           - index m - 1)) (list_ s);
            cur_ := cur m; cur_end_ := cur_end m |}.
Proof.
  set (len := Z.of_nat (length (block_list.blocks (list_ s)))).
  intros Hidx Hlen Hlt Hfuel. unfold unwind.
  rewrite block_list.size_blocks. fold len.
  rewrite (wrap_small len) by (unfold size_t_bits; lia).
  rewrite (unwind_count_in_range len (index m))
    by (unfold size_t_bits; lia).
  now rewrite (unwind_loop_runs (Z.to_nat (len - index m - 1)))
    by (try assumption; unfold unsigned_bits; lia).
Qed.

(** X7: markers nest.  Unwinding to an inner marker and then to an outer
    one leaves the stack that unwinding to the outer marker at once
    leaves; with the same marker twice, the second [unwind] changes
    nothing. *)
Theorem unwind_inner_then_outer fuel m1 m2 (s : t L) :
  0 <= index m1 -> index m1 <= index m2 ->
  index m2 < Z.of_nat (length (block_list.blocks (list_ s))) ->
  Z.of_nat (length (block_list.blocks (list_ s))) < 2 ^ 64 ->
  Z.of_nat (length (block_list.blocks (list_ s))) - index m1 - 1 < 2 ^ 32 ->
  (Z.to_nat (Z.of_nat (length (block_list.blocks (list_ s))) - index m1 - 1)
   < fuel)%nat ->
  exists s2 s1,
    unwind fuel m2 s = Some s2 /\
    unwind fuel m1 s2 = Some s1 /\
    unwind fuel m1 s = Some s1.
Proof.
  set (len := Z.of_nat (length (block_list.blocks (list_ s)))).
  intros H1 H12 H2 Hlen Hlt Hfuel.
  pose proof (unwind_in_range fuel m2 s) as U2. fold len in U2.
  pose proof (unwind_in_range fuel m1 s) as U1. fold len in U1.
  rewrite U2, U1 by lia.
  set (s2 := {| list_ := release (Z.to_nat (len - index m2 - 1)) (list_ s);
                cur_ := cur m2; cur_end_ := cur_end m2 |}).
  assert (Hlen2 : Z.of_nat (length (block_list.blocks (list_ s2)))
                  = index m2 + 1).
  { cbn [s2 list_]. rewrite release_blocks, length_skipn. fold len. lia. }
  pose proof (unwind_in_range fuel m1 s2) as U12.
  rewrite Hlen2 in U12.
  exists s2. eexists. split; [reflexivity|].
  rewrite U12 by lia. split; [reflexivity|].
  cbn [s2 list_ index cur cur_end]. do 2 f_equal. unfold release.
  rewrite <- Nat.iter_add. f_equal. lia.
Qed.

(** The count of [unwind] for an index at or above the block count. *)
Lemma unwind_count_stale count idx :
  0 <= count -> count <= idx -> idx < 2 ^ 64 ->
  wrap (wrap (count - idx) - 1) = 2 ^ 64 - (idx - count + 1).
Proof.
  intros H0 H1 H2.
  destruct (Z.eq_dec (idx - count + 1) (2 ^ 64)) as [He|Hne].
  - assert (count = 0) by lia. assert (idx = 2 ^ 64 - 1) by lia.
    subst. reflexivity.
  - apply unwind_count_wraps; unfold size_t_bits; lia.
Qed.

(** X8: a marker whose index is not below the block count (a marker of a
    block already released, or of another stack).  The count of [unwind]
    wraps around to 2^64 minus the excess [index - count + 1].  While the
    index is less than 2^64 - 2^32 above the block count, that is 2^32 or
    more, the [unsigned] counter never reaches it and the call does not
    return; for a larger index the call returns after that many calls of
    [deallocate], with the marker's pointers. *)
Theorem unwind_stale_marker m (s : t L) :
  block_list.size (list_ s) <= index m -> index m < 2 ^ 64 ->
  (index m - block_list.size (list_ s) < 2 ^ 64 - 2 ^ 32 ->
   forall fuel, unwind fuel m s = None) /\
  (2 ^ 64 - 2 ^ 32 <= index m - block_list.size (list_ s) ->
   forall fuel,
     (Z.to_nat (2 ^ 64 - (index m - block_list.size (list_ s) + 1))
      < fuel)%nat ->
     unwind fuel m s
     = Some {| list_ :=
                 release
                   (Z.to_nat (2 ^ 64
                              - (index m - block_list.size (list_ s) + 1)))
                   (list_ s);
               cur_ := cur m; cur_end_ := cur_end m |}).
Proof.
  intros Hge Hidx.
  assert (Hsz : 0 <= block_list.size (list_ s) < 2 ^ size_t_bits)
    by (rewrite block_list.size_blocks; apply wrap_range).
  unfold size_t_bits in Hsz. unfold unwind.
  rewrite unwind_count_stale by lia.
  split.
  - intros Hlt fuel.
    rewrite unwind_loop_diverges;
      [reflexivity| |]; unfold unsigned_bits; lia.
  - intros Hbig fuel Hfuel.
    now rewrite (unwind_loop_runs
                   (Z.to_nat (2 ^ 64
                              - (index m - block_list.size (list_ s) + 1))))
      by (try assumption; unfold unsigned_bits; lia).
Qed.

(** X9: [unwind(top())] undoes an [allocate] that fits: the stack is the
    one before the call, so the same request returns the same pointer
    again. *)
Theorem allocate_then_unwind fuel sz alignment (s : t L) :
  stack_inv s ->
  wrap (align_offset s alignment + sz) <= capacity s ->
  exists p s1,
    allocate sz alignment s = Ok (p, s1) /\
    unwind (S fuel) (top s) s1 = Some s.
Proof.
  intros Hinv Hfit.
  pose proof (allocate_fits_eq sz alignment s Hfit) as Ha.
  rewrite (surjective_pairing (bump s (align_offset s alignment) sz)) in Ha.
  set (p := fst (bump s (align_offset s alignment) sz)) in *.
  set (s1 := snd (bump s (align_offset s alignment) sz)) in *.
  assert (Hu : unwind (S fuel) (top s) s1 = Some s).
  { unfold unwind. rewrite unwind_diff_top.
    change (list_ s1) with (list_ s). rewrite Z.sub_diag.
    change (wrap 0) with 0. cbn. now destruct s. }
  exists p, s1. split; [exact Ha|exact Hu].
Qed.

End unwind_more.

(** * More on the adapter *)

Section stack_allocator_more.
Context {L : Type} `{CH : !block_list.chain L}.
Import memory_stack stack_allocator.

(** X15: [deallocate_node] gives nothing back: after [allocate_node] and
    [deallocate_node] of the node, the next [allocate_node] that fits the
    block places its node at or after the end of the deallocated one. *)
Theorem deallocated_node_not_reused (a : stack_allocator.t)
        sz alignment sz2 alignment2 (st : store (L := L)) p1 st1 p2 st2 :
  stack_inv (get_memory a st) ->
  is_pow2 alignment -> alignment <= 2 ^ 31 -> 0 <= sz < 2 ^ 63 ->
  is_pow2 alignment2 -> alignment2 <= 2 ^ 31 -> 0 <= sz2 < 2 ^ 63 ->
  allocate_node a sz alignment st = Ok (p1, st1) ->
  wrap (align_offset (get_memory a st1) alignment2 + sz2)
  <= capacity (get_memory a st1) ->
  allocate_node a sz2 alignment2 (deallocate_node a p1 sz alignment st1)
  = Ok (p2, st2) ->
  p1 + sz <= p2.
Proof.
  unfold allocate_node, deallocate_node, get_memory.
  intros Hinv Hp Hle Hsz Hp2 Hle2 Hsz2 H1 Hfit2 H2.
  destruct (allocate sz alignment (st (stack_ a))) as [[q s1]|] eqn:Ha1;
    [|discriminate].
  cbn [bind] in H1. injection H1 as -> <-.
  unfold update in *. rewrite Nat.eqb_refl in *.
  rewrite (allocate_fits_eq _ _ _ Hfit2) in H2. cbn [bind] in H2.
  pose proof (stack_inv_allocate _ _ _ _ _ Hinv Ha1) as Hinv1.
  pose proof (align_offset_small s1 alignment2 Hp2 Hle2) as Ho2.
  destruct (bump_range s1 (align_offset s1 alignment2) sz2 Hinv1)
    as (R1 & _); [lia|lia|lia|exact Hfit2|].
  assert (Hp2eq : p2 = fst (bump s1 (align_offset s1 alignment2) sz2)).
  { destruct (bump s1 (align_offset s1 alignment2) sz2) as [p' s'].
    now injection H2 as -> _. }
  rewrite <- Hp2eq in R1.
  assert (Hend : p1 + sz = cur_ s1).
  { assert (Hgen : forall s0 : memory_stack.t L,
               stack_inv s0 ->
               wrap (align_offset s0 alignment + sz) <= capacity s0 ->
               (p1, s1) = bump s0 (align_offset s0 alignment) sz ->
               p1 + sz = cur_ s1).
    { intros s0 Hinv0 Hfit Hb.
      pose proof (align_offset_small s0 alignment Hp Hle) as Ho.
      destruct (bump_range s0 (align_offset s0 alignment) sz Hinv0)
        as (_ & R2 & _); [lia|lia|lia|exact Hfit|].
      now rewrite <- Hb in R2. }
    apply allocate_cases in Ha1
      as [[Hfit Hb]|(b & l' & _ & Hal & Hfit & Hb)].
    - exact (Hgen _ Hinv Hfit Hb).
    - exact (Hgen _ (stack_inv_on_block _ _ _ Hal) Hfit Hb). }
  lia.
Qed.

End stack_allocator_more.

(** * The further properties at concrete inputs *)

Section more_witnesses.
Import memory_stack stack_allocator examples.

Lemma pow2_16 : is_pow2 16.
Proof. apply (is_pow2_exp 4). unfold size_t_bits. lia. Qed.

Lemma pow2_2 : is_pow2 2.
Proof. apply (is_pow2_exp 1). unfold size_t_bits. lia. Qed.

Lemma stack_inv_stack_1024_odd : stack_inv stack_1024_odd.
Proof.
  exists (block 4096 1024), []. unfold block_info.ok, size_t_bits; cbn.
  repeat split; lia.
Qed.

Lemma allocate_within_capacity_witness :
  wrap (align_offset stack_1024 16 + 100) <= capacity stack_1024 /\
  exists p s',
    allocate 100 16 stack_1024 = Ok (p, s') /\
    p = wrap (cur_ stack_1024 + align_offset stack_1024 16) /\
    list_ s' = list_ stack_1024 /\
    cur_end_ s' = cur_end_ stack_1024 /\
    next_capacity s' = next_capacity stack_1024 /\
    cur_ stack_1024 <= cur_ s' /\
    cur_ s' = cur_ stack_1024 + wrap (align_offset stack_1024 16 + 100) /\
    capacity s' = capacity stack_1024 - wrap (align_offset stack_1024 16 + 100).
Proof.
  assert (Hfit : wrap (align_offset stack_1024 16 + 100)
                 <= capacity stack_1024) by (vm_compute; discriminate).
  split; [exact Hfit|].
  exact (allocate_within_capacity 100 16 stack_1024 stack_inv_stack_1024 Hfit).
Defined.

Lemma allocate_all_pushes_blocks_witness :
  allocate_all [(100, 16); (50, 16); (900, 16)] stack_1024
  = Ok ([4096; 4244; 5120], stack_1024_after) /\
  length [4096; 4244; 5120] = 3%nat /\
  exists newer,
    block_list.blocks (list_ stack_1024_after)
    = newer ++ block_list.blocks (list_ stack_1024) /\
    (length newer <= 3)%nat.
Proof.
  assert (Hrun : allocate_all [(100, 16); (50, 16); (900, 16)] stack_1024
                 = Ok ([4096; 4244; 5120], stack_1024_after))
    by reflexivity.
  split; [exact Hrun|].
  exact (allocate_all_pushes_blocks _ _ _ _ Hrun).
Defined.


Lemma allocate_overflow_short_witness :
  2 ^ 64 <= align_offset stack_1024_odd 2 + (2 ^ 64 - 1) /\
  exists p s',
    allocate (2 ^ 64 - 1) 2 stack_1024_odd = Ok (p, s') /\
    list_ s' = list_ stack_1024_odd /\
    cur_ s'
    = cur_ stack_1024_odd
      + (align_offset stack_1024_odd 2 + (2 ^ 64 - 1) - 2 ^ 64) /\
    cur_ s' - cur_ stack_1024_odd < 2 ^ 64 - 1.
Proof.
  assert (Hov : 2 ^ 64 <= align_offset stack_1024_odd 2 + (2 ^ 64 - 1))
    by (vm_compute; discriminate).
  split; [exact Hov|].
  apply (allocate_overflow_short (2 ^ 64 - 1) 2 stack_1024_odd
           stack_inv_stack_1024_odd); [lia|exact Hov|].
  vm_compute. discriminate.
Defined.

Lemma unwind_inner_then_outer_witness :
  exists s2 s1,
    unwind 3 (top stack_1024_after) stack_1024_after = Some s2 /\
    unwind 3 (top stack_1024) s2 = Some s1 /\
    unwind 3 (top stack_1024) stack_1024_after = Some s1.
Proof.
  apply (unwind_inner_then_outer 3 (top stack_1024) (top stack_1024_after)
           stack_1024_after); cbn; lia.
Defined.

Lemma unwind_stale_marker_witness :
  block_list.size (list_ stack_1024) <= index (top stack_1024_after) /\
  unwind 5 (top stack_1024_after) stack_1024 = None /\
  unwind 5 {| index := 2 ^ 64 - 3; cur := 4096; cur_end := 5120 |}
    stack_1024
  = Some {| list_ := release 3 (list_ stack_1024);
            cur_ := 4096; cur_end_ := 5120 |}.
Proof.
  assert (Hge : block_list.size (list_ stack_1024)
                <= index (top stack_1024_after))
    by (vm_compute; discriminate).
  assert (Hlt : index (top stack_1024_after) < 2 ^ 64)
    by (vm_compute; reflexivity).
  assert (Hnear : index (top stack_1024_after)
                  - block_list.size (list_ stack_1024) < 2 ^ 64 - 2 ^ 32)
    by (vm_compute; reflexivity).
  split; [exact Hge|]. split.
  - exact (proj1 (unwind_stale_marker (top stack_1024_after) stack_1024
                    Hge Hlt) Hnear 5%nat).
  - set (m := {| index := 2 ^ 64 - 3; cur := 4096; cur_end := 5120 |}).
    assert (H1 : block_list.size (list_ stack_1024) <= index m)
      by (vm_compute; discriminate).
    assert (H2 : index m < 2 ^ 64) by (vm_compute; reflexivity).
    assert (H3 : 2 ^ 64 - 2 ^ 32
                 <= index m - block_list.size (list_ stack_1024))
      by (vm_compute; discriminate).
    assert (H4 : (Z.to_nat (2 ^ 64 - (index m
                                      - block_list.size (list_ stack_1024)
                                      + 1)) < 5)%nat)
      by (vm_compute; lia).
    exact (proj2 (unwind_stale_marker m stack_1024 H1 H2) H3 5%nat H4).
Defined.

Lemma allocate_aligned_iff_witness :
  allocate 100 16 stack_1024
  = Ok (4096, {| list_ := list_ stack_1024; cur_ := 4196;
                 cur_end_ := 5120 |}) /\
  ((wrap (align_offset stack_1024 16 + 100) <= capacity stack_1024 /\
    (4096 mod 16 = 0
     <-> cur_ stack_1024 mod 16 = 0 \/ cur_ stack_1024 mod 16 = 1))
   \/
   (capacity stack_1024 < wrap (align_offset stack_1024 16 + 100) /\
    exists b l',
      block_list.allocate (list_ stack_1024) = Some (b, l') /\
      (4096 mod 16 = 0
       <-> block_info.memory b mod 16 = 0
           \/ block_info.memory b mod 16 = 1))).
Proof.
  assert (Ha : allocate 100 16 stack_1024
               = Ok (4096, {| list_ := list_ stack_1024; cur_ := 4196;
                              cur_end_ := 5120 |})) by reflexivity.
  split; [exact Ha|].
  exact (allocate_aligned_iff 100 16 stack_1024 4096 _ pow2_16 Ha).
Defined.

Lemma allocate_zero_bytes_witness :
  allocate 0 1 stack_1024 = Ok (cur_ stack_1024, stack_1024).
Proof. exact (allocate_zero_bytes stack_1024 stack_inv_stack_1024). Defined.

Lemma allocate_then_unwind_witness :
  exists p s1,
    allocate 100 16 stack_1024 = Ok (p, s1) /\
    unwind 1 (top stack_1024) s1 = Some stack_1024.
Proof.
  apply (allocate_then_unwind 0 100 16 stack_1024 stack_inv_stack_1024).
  vm_compute. discriminate.
Defined.

Lemma allocate_bytes_contiguous_witness :
  exists s1 s2,
    allocate 10 1 stack_1024 = Ok (cur_ stack_1024, s1) /\
    allocate 20 1 s1 = Ok (cur_ stack_1024 + 10, s2) /\
    list_ s2 = list_ stack_1024 /\
    capacity s2 = capacity stack_1024 - (10 + 20).
Proof.
  apply (allocate_bytes_contiguous 10 20 stack_1024 stack_inv_stack_1024);
    [lia|lia|vm_compute; discriminate].
Defined.

Lemma deallocated_node_not_reused_witness :
  exists st1 st2,
    allocate_node {| stack_ := 0 |} 100 16 (fun _ => stack_1024)
    = Ok (4096, st1) /\
    allocate_node {| stack_ := 0 |} 50 16
      (deallocate_node {| stack_ := 0 |} 4096 100 16 st1)
    = Ok (4244, st2) /\
    4096 + 100 <= 4244.
Proof.
  pose (st1 := update (fun _ => stack_1024) 0
                 {| list_ := list_ stack_1024; cur_ := 4196;
                    cur_end_ := 5120 |}).
  pose (st2 := update st1 0
                 {| list_ := list_ stack_1024; cur_ := 4294;
                    cur_end_ := 5120 |}).
  assert (H1 : allocate_node {| stack_ := 0 |} 100 16 (fun _ => stack_1024)
               = Ok (4096, st1)) by reflexivity.
  assert (H2 : allocate_node {| stack_ := 0 |} 50 16
                 (deallocate_node {| stack_ := 0 |} 4096 100 16 st1)
               = Ok (4244, st2)) by reflexivity.
  exists st1, st2. split; [exact H1|]. split; [exact H2|].
  apply (deallocated_node_not_reused {| stack_ := 0 |} 100 16 50 16
           (fun _ => stack_1024) 4096 st1 4244 st2
           stack_inv_stack_1024 pow2_16 ltac:(lia) ltac:(lia)
           pow2_16 ltac:(lia) ltac:(lia) H1);
    [vm_compute; discriminate|exact H2].
Defined.

Lemma align_offset_zero_iff_small_witness :
  align_offset stack_1024_odd 16 = 0 <-> cur_ stack_1024_odd mod 16 = 0.
Proof.
  apply (align_offset_zero_iff_small stack_1024_odd 16 pow2_16). lia.
Defined.

Lemma align_offset_bounds_witness :
  padding_spec (cur_ stack_1024_odd) 16 <= align_offset stack_1024_odd 16 /\
  4 * align_offset stack_1024_odd 16 <= 16 * 16.
Proof.
  apply (align_offset_bounds stack_1024_odd 16 pow2_16). lia.
Defined.

End more_witnesses.

(** * The two defects at work *)

Section defects_at_work.
Import memory_stack examples.

Lemma stack_16_full_reached :
  (do s <- make 16; do (_, s1) <- allocate 16 1 s; Ok s1) = Ok stack_16_full.
Proof. reflexivity. Qed.

Lemma stack_inv_stack_16_full : stack_inv stack_16_full.
Proof.
  exists (block 4096 16), []. unfold block_info.ok, size_t_bits; cbn.
  repeat split; lia.
Qed.

(** C4: a stack of block size 16 whose block [allocate(16, 1)] has
    filled, then [allocate(16, 32)].  The padding plus the size exceeds
    the capacity 0 and exactly one block is acquired, of 32 bytes at
    4112; it holds the padded request (padding 16, size 16).  The source
    recomputes the padding as [16 * (32 - 16) = 256]: the assertion fails,
    and the bump that runs when the assertion is compiled out returns
    4368, past the end 4144 of the block. *)
Theorem allocate_fails_in_sufficient_block :
  is_pow2 32 /\
  (do s <- make 16; do (_, s1) <- allocate 16 1 s; Ok s1) = Ok stack_16_full /\
  capacity stack_16_full < padding_spec (cur_ stack_16_full) 32 + 16 /\
  block_list.allocate (list_ stack_16_full)
  = Some (block 4112 32, chain_16_next) /\
  padding_spec (block_info.memory (block 4112 32)) 32 + 16
  <= block_info.size (block 4112 32) /\
  align_offset (on_block chain_16_next (block 4112 32)) 32 = 256 /\
  capacity (on_block chain_16_next (block 4112 32)) = 32 /\
  allocate 16 32 stack_16_full = Fail assertion_failed /\
  fst (bump (on_block chain_16_next (block 4112 32)) 256 16) = 4368 /\
  cur_end_ (on_block chain_16_next (block 4112 32)) = 4144.
Proof.
  split; [apply (is_pow2_exp 5); unfold size_t_bits; lia|].
  split; [reflexivity|]. split; [vm_compute; reflexivity|].
  split; [reflexivity|]. split; [vm_compute; discriminate|].
  repeat split.
Qed.

(** C5: a stack of block size 16, then [allocate(2, 1)] and
    [allocate(5, 8)].  The padded requests need [2 + (6 + 5) = 13] of the
    16 bytes, so they fit the block together.  The second call finds the
    cursor 2 past a multiple of 8, pads by [2 * (8 - 2) = 12] where 6
    aligns it, finds [12 + 5 > 14] and acquires a second block. *)
Theorem fitting_requests_switch_block :
  is_pow2 1 /\ is_pow2 8 /\
  make 16 = Ok stack_16 /\
  spec_padded_total [(2, 1); (5, 8)] (cur_ stack_16) = 13 /\
  spec_padded_total [(2, 1); (5, 8)] (cur_ stack_16) <= capacity stack_16 /\
  allocate 2 1 stack_16 = Ok (4096, stack_16_plus2) /\
  padding_spec (cur_ stack_16_plus2) 8 = 6 /\
  align_offset stack_16_plus2 8 = 12 /\
  capacity stack_16_plus2 = 14 /\
  (do (ptrs, s') <- allocate_all [(2, 1); (5, 8)] stack_16;
   Ok (ptrs, block_list.size (list_ stack_16), block_list.size (list_ s'),
       block_list.blocks (list_ s')))
  = Ok ([4096; 4112], 1, 2, [block 4112 32; block 4096 16]).
Proof.
  split; [apply (is_pow2_exp 0); unfold size_t_bits; lia|].
  split; [apply (is_pow2_exp 3); unfold size_t_bits; lia|].
  split; [reflexivity|]. split; [reflexivity|].
  split; [vm_compute; discriminate|]. repeat split.
Qed.

(** The marker of [full16] is valid for the stack that the 2^32 requests
    leave, and [unwind] with it does not return. *)
Lemma valid_marker_never_unwound :
  exists ptrs s',
    allocate_all requests_2p32 full16 = Ok (ptrs, s') /\
    marker_valid (top full16) s' /\
    forall fuel, unwind fuel (top full16) s' = None.
Proof.
  destruct (fill_run (Z.to_nat (2 ^ 32)) full16 full16_is_full)
    as (ptrs & s' & Hrun & Hlen).
  { rewrite Z2Nat.id by lia. cbn [cur_ full16]. lia. }
  assert (Hn : Z.of_nat (length (block_list.blocks (list_ s')))
               = 2 ^ 32 + 1).
  { cbn [block_list.blocks bump_chain.bump_chain_is_chain].
    rewrite Hlen, Nat2Z.inj_add, Z2Nat.id by lia. reflexivity. }
  destruct (allocate_all_blocks _ _ _ _ Hrun) as (newer & Hbl & _).
  exists ptrs, s'. split; [exact Hrun|]. split.
  - exists newer, (block 4096 16), []. split; [exact Hbl|].
    split; [rewrite Hn; unfold size_t_bits; lia|].
    unfold block_info.ok, size_t_bits; cbn. repeat split; lia.
  - intros fuel. unfold unwind.
    rewrite unwind_diff_top, Hn.
    rewrite unwind_loop_diverges;
      [reflexivity|unfold unsigned_bits; lia|].
    vm_compute. discriminate.
Qed.

(** C6: the invariant is not kept in two places.  At the block switch of
    [allocate(16, 32)] on the full stack of block size 16 the acquired
    block of 32 bytes satisfies the padded request (16 + 16), but the
    source pads by 256: the assertion fails, and the bump that runs when
    the assertion is compiled out leaves the cursor at 4384, past
    [cur_end_ = 4144].  And [unwind] with the valid marker of [full16],
    after 2^32 blocks were acquired, never returns. *)
Theorem invariant_not_kept :
  (stack_inv stack_16_full /\
   block_list.allocate (list_ stack_16_full)
   = Some (block 4112 32, chain_16_next) /\
   padding_spec (block_info.memory (block 4112 32)) 32 + 16
   <= block_info.size (block 4112 32) /\
   allocate 16 32 stack_16_full = Fail assertion_failed /\
   cur_end_ (snd (bump (on_block chain_16_next (block 4112 32))
                       (align_offset (on_block chain_16_next (block 4112 32))
                                     32) 16))
   < cur_ (snd (bump (on_block chain_16_next (block 4112 32))
                     (align_offset (on_block chain_16_next (block 4112 32))
                                   32) 16)) /\
   ~ stack_inv (snd (bump (on_block chain_16_next (block 4112 32))
                          (align_offset
                             (on_block chain_16_next (block 4112 32)) 32)
                          16))) /\
  (exists ptrs s',
      allocate_all requests_2p32 full16 = Ok (ptrs, s') /\
      marker_valid (top full16) s' /\
      forall fuel, unwind fuel (top full16) s' = None).
Proof.
  split; [|exact valid_marker_never_unwound].
  split; [exact stack_inv_stack_16_full|]. split; [reflexivity|].
  split; [vm_compute; discriminate|]. split; [reflexivity|].
  assert (Hlt : cur_end_ (snd (bump (on_block chain_16_next (block 4112 32))
                       (align_offset (on_block chain_16_next (block 4112 32))
                                     32) 16))
   < cur_ (snd (bump (on_block chain_16_next (block 4112 32))
                     (align_offset (on_block chain_16_next (block 4112 32))
                                   32) 16))) by (vm_compute; reflexivity).
  split; [exact Hlt|].
  intros Hinv. apply stack_inv_pointers in Hinv as (_ & Hle & _). lia.
Qed.

End defects_at_work.
